(** * Alchemist workflow engine: graph model and execution

    Shallow embedding of [alchemist/core/component.py] and
    [alchemist/core/workflow.py].

    - Python dictionaries whose iteration order is observable (the
      [components] mapping drives the traversal of the topological sort)
      are insertion-ordered association lists ([dict]).
    - Dictionaries used only through lookup and assignment (the output
      table, a component's input mapping, [component_results]) are
      [gmap string _].
    - The two Python sets of the topological sort are [gset string].
    - A method that raises is modelled by an explicit outcome that still
      carries the workflow as the call left it, because the mutations made
      before the [raise] stay visible to the caller.
    - What depends on the interpreter, the depth to which calls may nest
      and the text of [repr], is a parameter of the model ([Python]).
    - Wall-clock fields ([execution_time]) and logging are left out. *)

From stdpp Require Import gmap strings list fin_maps.

#[global] Set Warnings "-clear-no-such-hyp".

Open Scope string_scope.

(** ** Enumerations *)

Module ComponentStatus.
Inductive t := PENDING | RUNNING | COMPLETED | FAILED | SKIPPED.
#[global] Instance eq_dec : EqDecision t.
Proof. solve_decision. Defined.
End ComponentStatus.

Module WorkflowStatus.
Inductive t := PENDING | RUNNING | COMPLETED | FAILED | CANCELLED.
#[global] Instance eq_dec : EqDecision t.
Proof. solve_decision. Defined.
End WorkflowStatus.

(** ** The interpreter

    What the model takes from the Python interpreter it runs on.
    - [recursion_limit]: the number of frames the interpreter still allows
      when [_update_execution_order] starts its traversal, that is
      [sys.getrecursionlimit()] less the frames already on the stack. A call
      of a Python function that needs one more raises [RecursionError].
      Frames are counted in the traversal only, the one place where calls
      nest to a depth that grows with the graph; built-in methods
      ([set.add], [list.copy], ...) take no frame.
    - [repr]: [repr] on strings, whose quotes and escapes depend on the
      characters of the string and, beyond ASCII, on the Unicode
      database. *)

Class Python := {
  recursion_limit : nat;
  repr : string -> string
}.

(** ** Exceptions

    Every structural error of [workflow.py] is a [ValueError] told apart by
    its message; [self.components[k]] on an absent key is a [KeyError];
    [RuntimeError] stands for whatever a component implementation raises.
    [RecursionError] is what a call beyond the recursion limit gives. Only
    subclasses of [Exception] are modelled, the ones the
    [except Exception] clause of [Workflow.execute] catches. *)

Inductive Exception :=
| ValueError (msg : string)
| KeyError (key : string)
| RuntimeError (msg : string)
| RecursionError.

(** [str(e)]; the text of a [KeyError] is the [repr] of its key. *)
Definition str `{!Python} (e : Exception) : string :=
  match e with
  | ValueError msg => msg
  | KeyError key => repr key
  | RuntimeError msg => msg
  | RecursionError => "maximum recursion depth exceeded"
  end.

Definition already_exists_msg (n : string) : string :=
  "Component '" +:+ n +:+ "' already exists in workflow".
Definition not_found_msg (n : string) : string :=
  "Component '" +:+ n +:+ "' not found in workflow".
Definition source_not_found_msg (n : string) : string :=
  "Source component '" +:+ n +:+ "' not found".
Definition target_not_found_msg (n : string) : string :=
  "Target component '" +:+ n +:+ "' not found".
Definition circular_msg (n : string) : string :=
  "Circular dependency detected involving '" +:+ n +:+ "'".
Definition missing_dependency_msg (n d : string) : string :=
  "Component '" +:+ n +:+ "' depends on missing component '" +:+ d +:+ "'".
Definition invalid_config_msg (n : string) : string :=
  "Component '" +:+ n +:+ "' has invalid configuration".

Open Scope nat_scope.
Open Scope list_scope.

(** ** Insertion-ordered dictionaries *)

Definition dict (V : Type) : Type := list (string * V).

Fixpoint dict_get {V} (k : string) (d : dict V) : option V :=
  match d with
  | [] => None
  | (k', v) :: d' => if decide (k = k') then Some v else dict_get k d'
  end.

(** [k in d] *)
Definition dict_mem {V} (k : string) (d : dict V) : bool :=
  match dict_get k d with Some _ => true | None => false end.

(** [d[k] = v]: an existing key keeps its position, a new one goes last *)
Fixpoint dict_set {V} (k : string) (v : V) (d : dict V) : dict V :=
  match d with
  | [] => [(k, v)]
  | (k', v') :: d' =>
      if decide (k = k') then (k, v) :: d' else (k', v') :: dict_set k v d'
  end.

(** [del d[k]] *)
Fixpoint dict_del {V} (k : string) (d : dict V) : dict V :=
  match d with
  | [] => []
  | (k', v') :: d' =>
      if decide (k = k') then d' else (k', v') :: dict_del k d'
  end.

Definition dict_keys {V} (d : dict V) : list string := d.*1.

(** ** component.py *)

Section Alchemist.

(** [Data] is the opaque payload ([Any]); [Config] is what a component
    instance holds besides the base-class fields (its configuration and
    the attributes of its subclass). *)
Context {py : Python} {Data Config : Type}.

Record ComponentResult := mkComponentResult {
  result_status : ComponentStatus.t;
  data : Data;
  metadata : gmap string Data;
  errors : list string
}.

Record Component := mkComponent {
  name : string;
  config : Config;
  status : ComponentStatus.t;
  dependencies : list string;
  outputs : list string
}.

(** [Component.__init__] *)
Definition new_component (n : string) (cfg : Config) : Component :=
  {| name := n; config := cfg; status := ComponentStatus.PENDING;
     dependencies := []; outputs := [] |}.

Definition add_dependency (dependency : string) (c : Component) : Component :=
  if decide (dependency ∈ dependencies c) then c
  else {| name := name c; config := config c; status := status c;
          dependencies := dependencies c ++ [dependency];
          outputs := outputs c |}.

Definition add_output (output : string) (c : Component) : Component :=
  if decide (output ∈ outputs c) then c
  else {| name := name c; config := config c; status := status c;
          dependencies := dependencies c;
          outputs := outputs c ++ [output] |}.

Definition get_dependencies (c : Component) : list string := dependencies c.
Definition get_outputs (c : Component) : list string := outputs c.

Definition set_status (s : ComponentStatus.t) (c : Component) : Component :=
  {| name := name c; config := config c; status := s;
     dependencies := dependencies c; outputs := outputs c |}.

(** What a call of [component.execute(inputs)] gives back. *)
Inductive Outcome :=
| Returns (r : ComponentResult)
| Raises (e : Exception).

(** The two abstract methods. Each receives [self] and hands back [self]
    as the call left it, so an implementation may change its own object. *)
Variable component_execute :
  Component -> gmap string Data -> Outcome * Component.
Variable validate_config : Component -> bool * Component.

(** ** workflow.py *)

Record WorkflowResult := mkWorkflowResult {
  wr_status : WorkflowStatus.t;
  component_results : gmap string ComponentResult;
  wr_errors : list string
}.

Record Workflow := mkWorkflow {
  components : dict Component;
  execution_order : list string;
  wf_status : WorkflowStatus.t
}.

(** [Workflow.__init__] *)
Definition new_workflow : Workflow :=
  {| components := []; execution_order := [];
     wf_status := WorkflowStatus.PENDING |}.

Definition set_components (cs : dict Component) (w : Workflow) : Workflow :=
  {| components := cs; execution_order := execution_order w;
     wf_status := wf_status w |}.

Definition set_execution_order (o : list string) (w : Workflow) : Workflow :=
  {| components := components w; execution_order := o;
     wf_status := wf_status w |}.

Definition set_wf_status (s : WorkflowStatus.t) (w : Workflow) : Workflow :=
  {| components := components w; execution_order := execution_order w;
     wf_status := s |}.

(** A structural operation either returns or raises; in both cases the
    workflow object is the one the call leaves behind. *)
Inductive outcome :=
| Done (w : Workflow)
| Raised (e : Exception) (w : Workflow).

Definition workflow_of (o : outcome) : Workflow :=
  match o with Done w => w | Raised _ w => w end.

(** *** The topological sort of [_update_execution_order] *)

Record dfs := mkDfs {
  visited : gset string;
  temp_visited : gset string;
  order : list string
}.

Definition dfs_init : dfs :=
  {| visited := ∅; temp_visited := ∅; order := [] |}.

Inductive dfs_result :=
| Visited (st : dfs)
| DfsRaised (e : Exception).

(** The [for dependency in ...] loop of [visit], over a visiting function *)
Fixpoint visit_dependencies (cs : dict Component)
    (v : string -> dfs -> dfs_result) (deps : list string) (st : dfs)
    : dfs_result :=
  match deps with
  | [] => Visited st
  | dependency :: deps' =>
      if dict_mem dependency cs then
        match v dependency st with
        | Visited st' => visit_dependencies cs v deps' st'
        | DfsRaised e => DfsRaised e
        end
      else visit_dependencies cs v deps' st
  end.

(** The nested function [visit]. [frames] is the number of frames the
    interpreter still allows: the call of [visit] takes one, which leaves
    [frames'] for the calls made in its body, first the method call
    [get_dependencies()] and then the recursive calls. *)
Fixpoint visit (frames : nat) (cs : dict Component) (node : string) (st : dfs)
    : dfs_result :=
  match frames with
  | O => DfsRaised RecursionError
  | S frames' =>
      if decide (node ∈ temp_visited st) then
        DfsRaised (ValueError (circular_msg node))
      else if decide (node ∈ visited st) then Visited st
      else
        match dict_get node cs with
        | None => DfsRaised (KeyError node)
        | Some c =>
            match frames' with
            | O => DfsRaised RecursionError
            | S _ =>
                let st1 := {| visited := visited st;
                              temp_visited := temp_visited st ∪ {[node]};
                              order := order st |} in
                match visit_dependencies cs (visit frames' cs)
                        (get_dependencies c) st1 with
                | Visited st2 =>
                    Visited {| visited := visited st2 ∪ {[node]};
                               temp_visited := temp_visited st2 ∖ {[node]};
                               order := order st2 ++ [node] |}
                | DfsRaised e => DfsRaised e
                end
            end
        end
  end.

(** The outer [for component_name in self.components] loop *)
Fixpoint visit_all (frames : nat) (cs : dict Component) (names : list string)
    (st : dfs) : dfs_result :=
  match names with
  | [] => Visited st
  | component_name :: names' =>
      if decide (component_name ∈ visited st) then
        visit_all frames cs names' st
      else
        match visit frames cs component_name st with
        | Visited st' => visit_all frames cs names' st'
        | DfsRaised e => DfsRaised e
        end
  end.

Definition _update_execution_order (w : Workflow) : outcome :=
  let cs := components w in
  match visit_all recursion_limit cs (dict_keys cs) dfs_init with
  | Visited st => Done (set_execution_order (order st) w)
  | DfsRaised e => Raised e w
  end.

(** *** Structural operations *)

Definition add_component (component : Component) (w : Workflow) : outcome :=
  if dict_mem (name component) (components w) then
    Raised (ValueError (already_exists_msg (name component))) w
  else
    _update_execution_order
      (set_components (dict_set (name component) component (components w)) w).

Definition remove_component (n : string) (w : Workflow) : outcome :=
  if dict_mem n (components w) then
    _update_execution_order (set_components (dict_del n (components w)) w)
  else Raised (ValueError (not_found_msg n)) w.

(** [self.components[k].m(...)] for a method [m] that updates the object *)
Definition dict_update {V} (k : string) (f : V -> V) (d : dict V) : dict V :=
  match dict_get k d with
  | Some v => dict_set k (f v) d
  | None => d
  end.

Definition connect_components (source target : string) (w : Workflow)
    : outcome :=
  if negb (dict_mem source (components w)) then
    Raised (ValueError (source_not_found_msg source)) w
  else if negb (dict_mem target (components w)) then
    Raised (ValueError (target_not_found_msg target)) w
  else
    let cs1 := dict_update target (add_dependency source) (components w) in
    let cs2 := dict_update source (add_output target) cs1 in
    _update_execution_order (set_components cs2 w).

(** *** Execution *)

Definition _prepare_component_inputs (component : Component)
    (available_outputs : gmap string Data) : gmap string Data :=
  foldl (fun inputs dependency =>
           match available_outputs !! dependency with
           | Some v => <[dependency := v]> inputs
           | None => inputs
           end)
        ∅ (get_dependencies component).

(** One call of [component.execute], as a recording collaborator sees it.
    The log is a ghost of the model: the engine never reads it. *)
Record Invocation := mkInvocation {
  inv_name : string;
  inv_inputs : gmap string Data;
  inv_outcome : Outcome
}.

(** The variables of [Workflow.execute] that live across iterations *)
Record run_state := mkRun {
  run_wf : Workflow;
  run_result : WorkflowResult;
  run_outputs : gmap string Data;
  run_log : list Invocation
}.

(** How the [for] loop inside the [try] ends: it runs to its end or hits
    [break] ([Normal]), or an exception leaves it ([Excepted]). *)
Inductive loop_result :=
| Normal (s : run_state)
| Excepted (e : Exception) (s : run_state).

(** Lines 108-119: fetch the component (done by the caller), mark it
    running, prepare its inputs and call it. *)
Definition call_component (component_name : string) (component : Component)
    (s : run_state) : Outcome * run_state :=
  let running := set_status ComponentStatus.RUNNING component in
  let component_inputs :=
    _prepare_component_inputs running (run_outputs s) in
  let called := component_execute running component_inputs in
  (fst called,
   {| run_wf :=
        set_components
          (dict_set component_name (snd called) (components (run_wf s)))
          (run_wf s);
      run_result := run_result s;
      run_outputs := run_outputs s;
      run_log :=
        run_log s
          ++ [mkInvocation component_name component_inputs (fst called)] |}).

(** [result.component_results[component_name] = component_result] *)
Definition store_result (component_name : string)
    (component_result : ComponentResult) (s : run_state) : run_state :=
  {| run_wf := run_wf s;
     run_result :=
       {| wr_status := wr_status (run_result s);
          component_results :=
            <[component_name := component_result]>
              (component_results (run_result s));
          wr_errors := wr_errors (run_result s) |};
     run_outputs := run_outputs s;
     run_log := run_log s |}.

(** The body of [if component_result.status == ComponentStatus.FAILED] *)
Definition fail_run (component_result : ComponentResult) (s : run_state)
    : run_state :=
  {| run_wf := set_wf_status WorkflowStatus.FAILED (run_wf s);
     run_result :=
       {| wr_status := WorkflowStatus.FAILED;
          component_results := component_results (run_result s);
          wr_errors := wr_errors (run_result s) ++ errors component_result |};
     run_outputs := run_outputs s;
     run_log := run_log s |}.

(** [component_outputs[component_name] = component_result.data] *)
Definition store_output (component_name : string)
    (component_result : ComponentResult) (s : run_state) : run_state :=
  {| run_wf := run_wf s;
     run_result := run_result s;
     run_outputs :=
       <[component_name := data component_result]> (run_outputs s);
     run_log := run_log s |}.

Fixpoint run_loop (names : list string) (s : run_state) : loop_result :=
  match names with
  | [] => Normal s
  | component_name :: rest =>
      match dict_get component_name (components (run_wf s)) with
      | None => Excepted (KeyError component_name) s
      | Some component =>
          match call_component component_name component s with
          | (Raises e, s1) => Excepted e s1
          | (Returns component_result, s1) =>
              let s2 := store_result component_name component_result s1 in
              if decide (result_status component_result
                         = ComponentStatus.FAILED)
              then Normal (fail_run component_result s2)
              else run_loop rest
                     (store_output component_name component_result s2)
          end
      end
  end.

Definition loop_state (r : loop_result) : run_state :=
  match r with Normal s => s | Excepted _ s => s end.

(** Truth value of [initial_inputs] in [initial_inputs or {}] *)
Definition truthy (initial_inputs : option (gmap string Data)) : bool :=
  match initial_inputs with
  | Some m => negb (bool_decide (size m = 0))
  | None => false
  end.

(** What a call of [Workflow.execute] leaves behind: the returned result,
    the workflow, the caller's [initial_inputs] object as it is after the
    call, and the ghost log of component calls. *)
Record Execution := mkExecution {
  exec_result : WorkflowResult;
  exec_workflow : Workflow;
  exec_initial_inputs : option (gmap string Data);
  exec_log : list Invocation
}.

(** The tail of [execute] after the loop: the [if] that closes the [try]
    body, or the [except] clause. *)
Definition finish (r : loop_result) : run_state :=
  match r with
  | Normal s =>
      if decide (wf_status (run_wf s) = WorkflowStatus.RUNNING) then
        {| run_wf := set_wf_status WorkflowStatus.COMPLETED (run_wf s);
           run_result :=
             {| wr_status := WorkflowStatus.COMPLETED;
                component_results := component_results (run_result s);
                wr_errors := wr_errors (run_result s) |};
           run_outputs := run_outputs s; run_log := run_log s |}
      else s
  | Excepted e s =>
      {| run_wf := set_wf_status WorkflowStatus.FAILED (run_wf s);
         run_result :=
           {| wr_status := WorkflowStatus.FAILED;
              component_results := component_results (run_result s);
              wr_errors := wr_errors (run_result s) ++ [str e] |};
         run_outputs := run_outputs s; run_log := run_log s |}
  end.

(** The state in which the loop of [execute] is entered (lines 99-104) *)
Definition run_start (initial_inputs : option (gmap string Data))
    (w : Workflow) : run_state :=
  {| run_wf := set_wf_status WorkflowStatus.RUNNING w;
     run_result :=
       {| wr_status := WorkflowStatus.RUNNING; component_results := ∅;
          wr_errors := [] |};
     run_outputs :=
       if truthy initial_inputs then default ∅ initial_inputs else ∅;
     run_log := [] |}.

Definition execute (initial_inputs : option (gmap string Data))
    (w : Workflow) : Execution :=
  let s :=
    finish (run_loop (execution_order w) (run_start initial_inputs w)) in
  {| exec_result := run_result s;
     exec_workflow := run_wf s;
     exec_initial_inputs :=
       if truthy initial_inputs then Some (run_outputs s)
       else initial_inputs;
     exec_log := run_log s |}.

(** *** Validation *)

(** The inner loop of the first pass of [validate] *)
Definition check_dependencies (cs : dict Component) (component_name : string)
    (component : Component) (errs : list string) : list string :=
  foldl (fun errs dependency =>
           if dict_mem dependency cs then errs
           else errs ++ [missing_dependency_msg component_name dependency])
        errs (get_dependencies component).

(** The second pass: each component's [validate_config] is called on the
    object stored in the mapping, which keeps whatever the call did to it. *)
Fixpoint check_configs (items : dict Component) (errs : list string)
    : list string * dict Component :=
  match items with
  | [] => (errs, [])
  | (component_name, component) :: rest =>
      let checked := validate_config component in
      let errs' :=
        if fst checked then errs
        else errs ++ [invalid_config_msg component_name] in
      let done := check_configs rest errs' in
      (fst done, (component_name, snd checked) :: snd done)
  end.

Definition validate (w : Workflow) : list string * Workflow :=
  let cs := components w in
  let errs :=
    foldl (fun errs item => check_dependencies cs (fst item) (snd item) errs)
          [] cs in
  let done := check_configs cs errs in
  (fst done, set_components (snd done) w).

Definition get_component_graph (w : Workflow) : dict (list string) :=
  (fun item => (fst item, get_dependencies (snd item))) <$> components w.

(** ** Vocabulary of the properties *)

(** [a] occurs at an earlier position than [b] *)
Definition precedes (a b : string) (l : list string) : Prop :=
  ∃ i j, l !! i = Some a ∧ l !! j = Some b ∧ i < j.

(** [a] is listed as a dependency of [b] *)
Definition dependency_of (cs : dict Component) (a b : string) : Prop :=
  ∃ c, dict_get b cs = Some c ∧ a ∈ dependencies c.

(** A dependency edge between two components that are both in the graph *)
Definition edge (cs : dict Component) (a b : string) : Prop :=
  dependency_of cs a b ∧ dict_mem a cs = true.

Definition has_cycle (cs : dict Component) : Prop :=
  ∃ n, tc (edge cs) n n.

(** The circular dependency error of [visit] *)
Definition circular (e : Exception) : Prop :=
  ∃ n, e = ValueError (circular_msg n).

(** The loop invariant of the traversal *)
Record dfs_inv (cs : dict Component) (st : dfs) : Prop := mkDfsInv {
  inv_visited : visited st = list_to_set (order st);
  inv_nodup : NoDup (order st);
  inv_keys : ∀ n, n ∈ order st -> n ∈ dict_keys cs;
  inv_edges : ∀ a b, b ∈ order st -> edge cs a b -> precedes a b (order st);
  inv_disjoint : visited st ## temp_visited st
}.

(** What a call that returns has done *)
Definition visits (cs : dict Component) (v : string -> dfs -> dfs_result)
    : Prop :=
  ∀ node st st',
    dfs_inv cs st -> node ∈ dict_keys cs -> v node st = Visited st' ->
    dfs_inv cs st' ∧ temp_visited st' = temp_visited st
    ∧ order st `prefix_of` order st' ∧ node ∈ visited st'.

(** The component mapping once [connect_components] has recorded the edge *)
Definition connected (source target : string) (cs : dict Component)
    : dict Component :=
  dict_update source (add_output target)
    (dict_update target (add_dependency source) cs).

(** Every listed dependency names a component of the graph. *)
Definition closed (cs : dict Component) : Prop :=
  ∀ a b, dependency_of cs a b -> dict_mem a cs = true.

(** The execution order lists every component once, dependencies first. *)
Definition topological (w : Workflow) : Prop :=
  NoDup (execution_order w)
  ∧ (∀ n, n ∈ execution_order w ↔ n ∈ dict_keys (components w))
  ∧ (∀ a b, edge (components w) a b -> precedes a b (execution_order w)).

(** The execution order is the one the current edges give. *)
Definition up_to_date (w : Workflow) : Prop :=
  _update_execution_order w = Done w.

(** Graph states reached by calls of [add_component] on new components and
    of [connect_components] that all returned *)
Inductive built : Workflow -> Prop :=
| built_new : built new_workflow
| built_add w w' n cfg :
    built w -> add_component (new_component n cfg) w = Done w' -> built w'
| built_connect w w' source target :
    built w -> connect_components source target w = Done w' -> built w'.

(** Dependencies and outputs mirror each other among present components. *)
Definition mirrored (cs : dict Component) : Prop :=
  ∀ a b ca cb,
    dict_get a cs = Some ca -> dict_get b cs = Some cb ->
    (a ∈ dependencies cb ↔ b ∈ outputs ca).

(** No component of the graph lists [n] in either direction. *)
Definition unreferenced (n : string) (cs : dict Component) : Prop :=
  ∀ m c, dict_get m cs = Some c -> (n ∉ dependencies c) ∧ (n ∉ outputs c).

(** Graph states reached by any calls of the three structural operations,
    returning or raising, where components are added new and under a name
    that no component left in the graph still lists *)
Inductive evolved : Workflow -> Prop :=
| evolved_new : evolved new_workflow
| evolved_add w n cfg :
    evolved w -> unreferenced n (components w) ->
    evolved (workflow_of (add_component (new_component n cfg) w))
| evolved_remove w n :
    evolved w -> evolved (workflow_of (remove_component n w))
| evolved_connect w source target :
    evolved w -> evolved (workflow_of (connect_components source target w)).

(** A run in which the component called [n] was called and returned [r] *)
Definition returned (n : string) (r : ComponentResult)
    (log : list Invocation) : Prop :=
  ∃ inputs, mkInvocation n inputs (Returns r) ∈ log.

(** A run in which the component called [n] was called at all *)
Definition invoked (n : string) (log : list Invocation) : Prop :=
  ∃ i, i ∈ log ∧ inv_name i = n.

(** The state of a run in which nothing has failed or raised so far *)
Record good (s : run_state) : Prop := mkGood {
  good_outcomes :
    ∀ i, i ∈ run_log s ->
         ∃ r, inv_outcome i = Returns r
              ∧ result_status r ≠ ComponentStatus.FAILED;
  good_results :
    ∀ n, is_Some (component_results (run_result s) !! n)
         ↔ n ∈ inv_name <$> run_log s;
  good_errors : wr_errors (run_result s) = [];
  good_status : wr_status (run_result s) = WorkflowStatus.RUNNING;
  good_wf_status : wf_status (run_wf s) = WorkflowStatus.RUNNING
}.

(** Every completed component's data is in the output table. *)
Definition outputs_stored (s : run_state) : Prop :=
  ∀ n r, component_results (run_result s) !! n = Some r ->
         result_status r ≠ ComponentStatus.FAILED ->
         run_outputs s !! n = Some (data r).

(** The recorded call [i] is a call of [execute] on the component [c]: its
    outcome is what [execute] of [c], marked running, gives when it is
    passed exactly the recorded input mapping. *)
Definition made_on (c : Component) (i : Invocation) : Prop :=
  inv_outcome i
  = (component_execute (set_status ComponentStatus.RUNNING c)
       (inv_inputs i)).1.

(** The output table after the calls of [log], from the table [start]:
    every call that returned a result other than FAILED has stored its
    data under its name. *)
Definition output_table (start : gmap string Data) (log : list Invocation)
    : gmap string Data :=
  foldl (fun table i =>
           match inv_outcome i with
           | Returns r =>
               if decide (result_status r = ComponentStatus.FAILED)
               then table else <[inv_name i := data r]> table
           | Raises _ => table
           end)
        start log.

(** A call that raised or returned a FAILED result *)
Definition unsuccessful (i : Invocation) : Prop :=
  match inv_outcome i with
  | Returns r => result_status r = ComponentStatus.FAILED
  | Raises _ => True
  end.

(** The calls of [log] follow the execution order of [w] from its start,
    and they stop only at its end, after an unsuccessful call, or at a
    name that is not in the component mapping. *)
Definition halts (w : Workflow) (log : list Invocation) : Prop :=
  ∃ rest,
    execution_order w = (inv_name <$> log) ++ rest
    ∧ (rest = []
       ∨ (∃ i, last log = Some i ∧ unsuccessful i)
       ∨ (∃ n, head rest = Some n ∧ dict_mem n (components w) = false)).

(** Every call of [log], a run of [w] started with [initial_inputs], was
    made on the component that [w] holds under the call's name, with the
    input mapping prepared from the output table as the earlier calls of
    the run left it. *)
Definition traced (initial_inputs : option (gmap string Data))
    (w : Workflow) (log : list Invocation) : Prop :=
  ∀ before i after,
    log = before ++ i :: after ->
    ∃ c, dict_get (inv_name i) (components w) = Some c
         ∧ made_on c i
         ∧ inv_inputs i
           = _prepare_component_inputs c
               (output_table (default ∅ initial_inputs) before).

(** Graph states reached by any calls of the three structural operations
    on components added new, whether the calls returned or raised *)
Inductive reachable : Workflow -> Prop :=
| reachable_new : reachable new_workflow
| reachable_add w n cfg :
    reachable w ->
    reachable (workflow_of (add_component (new_component n cfg) w))
| reachable_remove w n :
    reachable w -> reachable (workflow_of (remove_component n w))
| reachable_connect w source target :
    reachable w ->
    reachable (workflow_of (connect_components source target w)).

(** The call ran out of frames. *)
Definition overflowed (o : outcome) : Prop :=
  ∃ w, o = Raised RecursionError w.

(** Graph states reached by any calls of the three structural operations
    on components added new, whether the calls returned or raised, none of
    which ran out of frames *)
Inductive settled : Workflow -> Prop :=
| settled_new : settled new_workflow
| settled_add w n cfg :
    settled w -> ¬ overflowed (add_component (new_component n cfg) w) ->
    settled (workflow_of (add_component (new_component n cfg) w))
| settled_remove w n :
    settled w -> ¬ overflowed (remove_component n w) ->
    settled (workflow_of (remove_component n w))
| settled_connect w source target :
    settled w -> ¬ overflowed (connect_components source target w) ->
    settled (workflow_of (connect_components source target w)).

End Alchemist.

(** ** A concrete component class, in the manner of the test suite's mock *)

Inductive Mock :=
| MockAdd (k : Z)          (* returns [k] plus the sum of its inputs *)
| MockFail (msg : string)  (* returns a FAILED result carrying [msg] *)
| MockRaise (msg : string). (* raises *)

Definition mock_execute (self : Component (Config := Mock))
    (inputs : gmap string Z) : Outcome * Component :=
  match config self with
  | MockAdd k =>
      (Returns {| result_status := ComponentStatus.COMPLETED;
                  data := map_fold (fun _ v acc => v + acc)%Z k inputs;
                  metadata := ∅; errors := [] |},
       set_status ComponentStatus.COMPLETED self)
  | MockFail msg =>
      (Returns {| result_status := ComponentStatus.FAILED;
                  data := 0%Z; metadata := ∅; errors := [msg] |},
       set_status ComponentStatus.FAILED self)
  | MockRaise msg => (Raises (RuntimeError msg), self)
  end.

Definition mock_validate_config (self : Component (Config := Mock))
    : bool * Component :=
  (match config self with MockAdd k => bool_decide (0 ≤ k)%Z | _ => true end,
   self).

(** A second class, whose [execute] never fails: it returns its own
    number plus the sum of its inputs. *)
Definition adder_execute (self : Component (Config := Z))
    (inputs : gmap string Z) : Outcome * Component :=
  (Returns {| result_status := ComponentStatus.COMPLETED;
              data := map_fold (fun _ v acc => v + acc)%Z (config self) inputs;
              metadata := ∅; errors := [] |},
   set_status ComponentStatus.COMPLETED self).

(** ** An interpreter for the examples

    [repr] as CPython computes it on ASCII strings: single quotes unless
    the string holds a single quote and no double quote; the backslash and
    the chosen quote are escaped, tab, newline and carriage return are
    written [\t], [\n], [\r], the other control characters as [\x] and two
    hexadecimal digits. Bytes beyond ASCII are copied: the examples have
    none. *)

Definition hex_digit (n : nat) : Ascii.ascii :=
  Ascii.ascii_of_nat (if n <? 10 then 48 + n else 87 + n).

Definition repr_char (quote a : Ascii.ascii) : string :=
  let n := Ascii.nat_of_ascii a in
  if bool_decide (a = quote) || (n =? 92) then
    String (Ascii.ascii_of_nat 92) (String a EmptyString)
  else if n =? 9 then "\t"
  else if n =? 10 then "\n"
  else if n =? 13 then "\r"
  else if (n <? 32) || (n =? 127) then
    "\x" +:+ String (hex_digit (n / 16)) (String (hex_digit (n mod 16)) EmptyString)
  else String a EmptyString.

Fixpoint repr_chars (quote : Ascii.ascii) (s : string) : string :=
  match s with
  | EmptyString => EmptyString
  | String a s' => repr_char quote a +:+ repr_chars quote s'
  end.

Fixpoint has_char (a : Ascii.ascii) (s : string) : bool :=
  match s with
  | EmptyString => false
  | String b s' => bool_decide (a = b) || has_char a s'
  end.

Definition python_repr (s : string) : string :=
  let quote :=
    if has_char (Ascii.ascii_of_nat 39) s && negb (has_char (Ascii.ascii_of_nat 34) s)
    then Ascii.ascii_of_nat 34 else Ascii.ascii_of_nat 39 in
  String quote (repr_chars quote s) +:+ String quote EmptyString.

(** A thousand frames are more than any example needs. *)
Definition CPython : Python :=
  {| recursion_limit := 1000; repr := python_repr |}.

(** Builds a workflow by a script of calls, whatever each call does. *)
Inductive call {Config : Type} :=
| AddStep (n : string) (cfg : Config)
| RemoveStep (n : string)
| Connect (source target : string).

Definition perform `{!Python} {Config : Type} (w : Workflow)
    (c : call (Config := Config)) : Workflow :=
  workflow_of
    match c with
    | AddStep n cfg => add_component (new_component n cfg) w
    | RemoveStep n => remove_component n w
    | Connect source target => connect_components source target w
    end.

Definition script `{!Python} {Config : Type}
    (calls : list (call (Config := Config))) : Workflow :=
  foldl perform new_workflow calls.

Section Examples.
#[local] Existing Instance CPython.

(** [A -> B] *)
Definition ex_ab : Workflow :=
  script [AddStep "A" (MockAdd 1); AddStep "B" (MockAdd 2); Connect "A" "B"].

(** [A -> B], then the refused attempt to add [B -> A] *)
Definition ex_ab_refused : Workflow :=
  script [AddStep "A" (MockAdd 1); AddStep "B" (MockAdd 2); Connect "A" "B";
          Connect "B" "A"].

(** [A -> B] where [A] fails, and where [B] raises *)
Definition ex_fail : Workflow :=
  script [AddStep "A" (MockFail "boom"); AddStep "B" (MockAdd 2);
          Connect "A" "B"].

(** [A -> B] where [B] fails, then the refused attempt to add [B -> A] *)
Definition ex_fail_refused : Workflow :=
  script [AddStep "A" (MockAdd 1); AddStep "B" (MockFail "boom");
          Connect "A" "B"; Connect "B" "A"].

(** [ex_ab_refused], and then a third component *)
Definition ex_refused_added : Workflow :=
  script [AddStep "A" (MockAdd 1); AddStep "B" (MockAdd 2); Connect "A" "B";
          Connect "B" "A"; AddStep "C" (MockAdd 3)].

Definition ex_raise : Workflow :=
  script [AddStep "A" (MockAdd 1); AddStep "B" (MockRaise "oops");
          Connect "A" "B"].

Definition failed_result : ComponentResult (Data := Z) :=
  {| result_status := ComponentStatus.FAILED; data := 0%Z; metadata := ∅;
     errors := ["boom"] |}.

(** [A -> B -> C], added in the opposite order *)
Definition ex_chain : Workflow :=
  script [AddStep "C" 100%Z; AddStep "B" 10%Z; AddStep "A" 1%Z;
          Connect "B" "C"; Connect "A" "B"].

(** [A -> B], then [A] removed, then a new [A] added *)
Definition ex_removed : Workflow :=
  script [AddStep "A" (MockAdd 1); AddStep "B" (MockAdd 2); Connect "A" "B";
          RemoveStep "A"].

Definition ex_readded : Workflow :=
  script [AddStep "A" (MockAdd 1); AddStep "B" (MockAdd 2); Connect "A" "B";
          RemoveStep "A"; AddStep "A" (MockAdd 7)].

(** The diamond of the test suite, with an independent fifth component *)
Definition ex_diamond : Workflow :=
  script [AddStep "component_A" (MockAdd 1); AddStep "component_B" (MockAdd 1);
          AddStep "component_C" (MockAdd 1); AddStep "component_D" (MockAdd 1);
          AddStep "component_E" (MockAdd 1);
          Connect "component_A" "component_B";
          Connect "component_A" "component_C";
          Connect "component_B" "component_D";
          Connect "component_C" "component_D"].

End Examples.

(** ** The report of [validate], as comprehensions *)

(** The problems found by the first pass of [validate] over [items], for
    the mapping [cs]: one for each listed dependency that [cs] lacks *)
Definition missing_dependencies {Config : Type}
    (cs items : dict (Component (Config := Config))) : list string :=
  item ← items;
  missing_dependency_msg item.1
    <$> filter (fun d => dict_mem d cs = false) (dependencies item.2).

(** The problems found by the second pass: one for each component whose
    [validate_config] answers false *)
Definition invalid_configs {Config : Type}
    (validate_config :
       Component (Config := Config) -> bool * Component (Config := Config))
    (items : dict (Component (Config := Config))) : list string :=
  item ← items;
  if (validate_config item.2).1 then [] else [invalid_config_msg item.1].

(** ** Vocabulary of further properties *)

(** Read along the names [rest] of a mapping, after the names [pre]: every
    component comes after those of its dependencies that are in [cs]. *)
Fixpoint inserted_first {Config : Type}
    (cs : dict (Component (Config := Config))) (pre rest : list string)
    : Prop :=
  match rest with
  | [] => True
  | n :: rest' =>
      (∃ c, dict_get n cs = Some c
            ∧ ∀ d, d ∈ dependencies c -> dict_mem d cs = true -> d ∈ pre)
      ∧ inserted_first cs (pre ++ [n]) rest'
  end.

(** What has been established about the calls made so far, for the
    original workflow [w] and the names [ran] already run *)
Record flowing {Data Config : Type} (w : Workflow (Config := Config))
    (ran : list string) (s : run_state (Data := Data) (Config := Config))
    : Prop := mkFlowing {
  flowing_untouched :
    ∀ m, m ∉ ran ->
         dict_get m (components (run_wf s)) = dict_get m (components w);
  flowing_done :
    ∀ a, a ∈ ran ->
         ∃ ia ra, mkInvocation a ia (Returns ra) ∈ run_log s
                  ∧ result_status ra ≠ ComponentStatus.FAILED
                  ∧ component_results (run_result s) !! a = Some ra
                  ∧ run_outputs s !! a = Some (data ra);
  flowing_names : ∀ i, i ∈ run_log s -> inv_name i ∈ ran
}.

(** Every call in the log was given, under the name of each dependency of
    the called component, the data that dependency returned. *)
Definition fed {Data Config : Type} (w : Workflow (Config := Config))
    (s : run_state (Data := Data) (Config := Config)) : Prop :=
  ∀ i a, i ∈ run_log s -> edge (components w) a (inv_name i) ->
         ∃ ra, returned a ra (run_log s)
               ∧ result_status ra ≠ ComponentStatus.FAILED
               ∧ component_results (run_result s) !! a = Some ra
               ∧ inv_inputs i !! a = Some (data ra).

Section StaleExamples.
#[local] Existing Instance CPython.

(** [A -> B] with the refused [B -> A], a third component [C], and then
    [C] removed: the removal raises on the cycle after deleting [C], so the
    execution order still names it. *)
Definition ex_stale : Workflow :=
  script [AddStep "A" (MockAdd 1); AddStep "B" (MockAdd 2);
          AddStep "C" (MockAdd 3); Connect "A" "B"; Connect "B" "A";
          RemoveStep "C"].

End StaleExamples.

(** ** Building a workflow from a configuration

    [examples/config_based_workflow.py] builds a [Workflow] from the
    [ComponentConfig] entries of [config/manager.py]. [Settings] stands for
    the [config] dictionary of an entry. *)

Module ComponentConfig.
Record t {Settings : Type} := mk {
  name : string;
  type : string;
  class_name : string;
  config : Settings;
  dependencies : list string;
  enabled : bool
}.
Arguments mk {Settings} _ _ _ _ _ _.
End ComponentConfig.

(** The names that [COMPONENT_CLASSES] maps to a component class *)
Definition COMPONENT_CLASSES : list string :=
  ["FileIngestion"; "APIIngestion"; "DatabaseIngestion";
   "FilterProcessor"; "TransformProcessor"; "AggregationProcessor";
   "DeterministicReasoning"; "ProbabilisticReasoning";
   "MergeAggregation"; "VotingAggregation"; "WeightedAggregation";
   "ConsensusAggregation";
   "FileOutput"; "ConsoleOutput"; "APIOutput"].

Definition unknown_class_msg (class_name : string) : string :=
  "Unknown component class: " +:+ class_name.

(** An instance of a component class is a [Component] whose configuration
    is the class name, on which the methods of the class dispatch, with the
    [config] dictionary: every constructor of [components/*.py] calls
    [Component.__init__] and then only reads [config]. *)
Definition create_component_from_config {Settings : Type}
    (component_config : ComponentConfig.t (Settings := Settings))
    : Exception + Component (Config := string * Settings) :=
  let class_name := ComponentConfig.class_name component_config in
  if bool_decide (class_name ∈ COMPONENT_CLASSES) then
    inr (new_component (ComponentConfig.name component_config)
           (class_name, ComponentConfig.config component_config))
  else inl (ValueError (unknown_class_msg class_name)).

(** [for dependency in comp_config.dependencies:
       workflow.connect_components(dependency, comp_config.name)] *)
Fixpoint connect_dependencies `{!Python} {Config : Type}
    (dependencies : list string)
    (n : string) (w : Workflow (Config := Config)) : outcome :=
  match dependencies with
  | [] => Done w
  | dependency :: rest =>
      match connect_components dependency n w with
      | Done w' => connect_dependencies rest n w'
      | Raised e w' => Raised e w'
      end
  end.

(** The loop of [run_config_based_workflow] over
    [workflow_config.components] *)
Fixpoint add_components `{!Python} {Settings : Type}
    (configs : list (ComponentConfig.t (Settings := Settings)))
    (w : Workflow (Config := string * Settings)) : outcome :=
  match configs with
  | [] => Done w
  | comp_config :: rest =>
      if negb (ComponentConfig.enabled comp_config) then
        add_components rest w
      else
        match create_component_from_config comp_config with
        | inl e => Raised e w
        | inr component =>
            match add_component component w with
            | Raised e w' => Raised e w'
            | Done w1 =>
                match connect_dependencies
                        (ComponentConfig.dependencies comp_config)
                        (ComponentConfig.name comp_config) w1 with
                | Raised e w' => Raised e w'
                | Done w2 => add_components rest w2
                end
            end
        end
  end.

(** The workflow that [run_config_based_workflow] builds before it
    validates and runs it *)
Definition build_workflow `{!Python} {Settings : Type}
    (configs : list (ComponentConfig.t (Settings := Settings))) : outcome :=
  add_components configs new_workflow.

Definition enabled_configs {Settings : Type}
    (configs : list (ComponentConfig.t (Settings := Settings)))
    : list ComponentConfig.t :=
  filter (fun cc => ComponentConfig.enabled cc = true) configs.

(** Every dependency of an entry is in [pre] or is the name of an entry
    listed before it. *)
Definition declared_first {Settings : Type} (pre : list string)
    (cfgs : list (ComponentConfig.t (Settings := Settings))) : Prop :=
  ∀ i cc d,
    cfgs !! i = Some cc -> d ∈ ComponentConfig.dependencies cc ->
    d ∈ pre ++ (ComponentConfig.name <$> take i cfgs).

(** What the loop needs of the enabled entries, after the names [pre] *)
Definition buildable {Settings : Type} (pre : list string)
    (cfgs : list (ComponentConfig.t (Settings := Settings))) : Prop :=
  NoDup (pre ++ (ComponentConfig.name <$> cfgs))
  ∧ Forall (fun cc => ComponentConfig.class_name cc ∈ COMPONENT_CLASSES) cfgs
  ∧ declared_first pre cfgs.

(** The mapping [cs] has the names [ks], in this order and each once, and
    every component lists only names inserted before its own. *)
Definition layered {Config : Type}
    (cs : dict (Component (Config := Config))) (ks : list string) : Prop :=
  dict_keys cs = ks ∧ NoDup ks
  ∧ ∀ i n c d, ks !! i = Some n -> dict_get n cs = Some c ->
               d ∈ dependencies c -> d ∈ take i ks.

(** A workflow built in layers, whose execution order is the insertion
    order *)
Definition staged {Config : Type} (w : Workflow (Config := Config))
    (ks : list string) : Prop :=
  layered (components w) ks ∧ execution_order w = ks.

(** What the inner loop leaves of a mapping [cs]: the entries of [cs'] are
    those of [cs], with the names [ds] added to the dependencies of [n]. *)
Definition grown {Config : Type} (n : string) (ds : list string)
    (cs cs' : dict (Component (Config := Config))) : Prop :=
  ∀ m c', dict_get m cs' = Some c' ->
    ∃ c0, dict_get m cs = Some c0 ∧ config c' = config c0
          ∧ ∀ a, a ∈ dependencies c'
                 ↔ a ∈ dependencies c0 ∨ (m = n ∧ a ∈ ds).

(** Every component of [cs] is still in [cs'], with its configuration and
    its dependencies. *)
Definition kept {Config : Type}
    (cs cs' : dict (Component (Config := Config))) : Prop :=
  ∀ m c, dict_get m cs = Some c ->
    ∃ c', dict_get m cs' = Some c' ∧ config c' = config c
          ∧ ∀ a, a ∈ dependencies c' ↔ a ∈ dependencies c.

(** Every entry of [cfgs] has its component in [cs]: of the entry's class,
    with its [config] and exactly its dependencies. *)
Definition entered {Settings : Type}
    (cfgs : list (ComponentConfig.t (Settings := Settings)))
    (cs : dict (Component (Config := string * Settings))) : Prop :=
  ∀ cc, cc ∈ cfgs ->
    ∃ c, dict_get (ComponentConfig.name cc) cs = Some c
         ∧ config c
           = (ComponentConfig.class_name cc, ComponentConfig.config cc)
         ∧ ∀ d, d ∈ dependencies c ↔ d ∈ ComponentConfig.dependencies cc.

(** A two-step configuration with a disabled entry in between *)
Definition ex_configs : list (ComponentConfig.t (Settings := Z)) :=
  [ComponentConfig.mk "load" "file_ingestion" "FileIngestion" 1%Z [] true;
   ComponentConfig.mk "draft" "filter" "FilterProcessor" 2%Z ["load"] false;
   ComponentConfig.mk "report" "console_output" "ConsoleOutput" 3%Z
     ["load"] true].

(** ** Properties of the dictionaries *)

Section Dict.
Context {V : Type}.
Implicit Types (d : dict V) (k : string).

Lemma dict_mem_true k d : dict_mem k d = true ↔ is_Some (dict_get k d).
Proof.
  unfold dict_mem. destruct (dict_get k d); split; eauto; try done.
Qed.

Lemma dict_mem_false k d : dict_mem k d = false ↔ dict_get k d = None.
Proof. unfold dict_mem. destruct (dict_get k d); split; eauto; done. Qed.

Lemma dict_get_keys k d : is_Some (dict_get k d) ↔ k ∈ dict_keys d.
Proof.
  unfold dict_keys. induction d as [|[k' v] d IH]; simpl.
  - split; [by intros [? ?] | by rewrite elem_of_nil].
  - rewrite elem_of_cons. case_decide; subst.
    + split; [by left | eauto].
    + rewrite IH. split; [by right | by intros [?|?]].
Qed.

Lemma dict_mem_keys k d : dict_mem k d = true ↔ k ∈ dict_keys d.
Proof. by rewrite dict_mem_true, dict_get_keys. Qed.

Lemma dict_get_elem k v d : dict_get k d = Some v -> (k, v) ∈ d.
Proof.
  induction d as [|[k' v'] d IH]; simpl; [done|].
  case_decide; subst.
  - intros [= ->]. left.
  - intros ?. right. auto.
Qed.

Lemma dict_get_set k k' v d :
  dict_get k (dict_set k' v d)
  = if decide (k = k') then Some v else dict_get k d.
Proof.
  induction d as [|[k0 v0] d IH]; simpl.
  - by repeat case_decide.
  - destruct (decide (k' = k0)); simpl; repeat case_decide; subst; try done.
Qed.

Lemma dict_keys_set_mem k v d :
  dict_mem k d = true -> dict_keys (dict_set k v d) = dict_keys d.
Proof.
  unfold dict_mem, dict_keys. induction d as [|[k0 v0] d IH]; simpl; [done|].
  destruct (decide (k = k0)); simpl; subst; [done|].
  intros ?. f_equal. auto.
Qed.

Lemma dict_keys_set_new k v d :
  dict_mem k d = false -> dict_keys (dict_set k v d) = dict_keys d ++ [k].
Proof.
  unfold dict_mem, dict_keys. induction d as [|[k0 v0] d IH]; simpl; [done|].
  destruct (decide (k = k0)); simpl; subst; [done|].
  intros ?. f_equal. auto.
Qed.

Lemma dict_get_update k k' (f : V -> V) d :
  dict_get k (dict_update k' f d)
  = if decide (k = k') then f <$> dict_get k d else dict_get k d.
Proof.
  unfold dict_update. destruct (dict_get k' d) as [v|] eqn:E.
  - rewrite dict_get_set. case_decide; subst; [by rewrite E | done].
  - case_decide; subst; [by rewrite E | done].
Qed.

Lemma dict_keys_update k (f : V -> V) d :
  dict_keys (dict_update k f d) = dict_keys d.
Proof.
  unfold dict_update. destruct (dict_get k d) eqn:E; [|done].
  apply dict_keys_set_mem. unfold dict_mem. by rewrite E.
Qed.

Lemma dict_mem_update k k' (f : V -> V) d :
  dict_mem k (dict_update k' f d) = dict_mem k d.
Proof.
  unfold dict_mem. rewrite dict_get_update.
  case_decide; [|done]. by destruct (dict_get k d).
Qed.

Lemma dict_get_del_ne k k' d :
  k ≠ k' -> dict_get k (dict_del k' d) = dict_get k d.
Proof.
  intros Hne. induction d as [|[k0 v0] d IH]; simpl; [done|].
  destruct (decide (k' = k0)); simpl; repeat case_decide; subst; done.
Qed.

Lemma dict_keys_del_sublist k d :
  dict_keys (dict_del k d) `sublist_of` dict_keys d.
Proof.
  unfold dict_keys. induction d as [|[k0 v0] d IH]; simpl; [done|].
  case_decide; simpl.
  - by apply sublist_cons.
  - by apply sublist_skip.
Qed.

Lemma dict_keys_del_nodup k d :
  NoDup (dict_keys d) -> NoDup (dict_keys (dict_del k d)).
Proof. intros ?. eapply sublist_NoDup; [done|apply dict_keys_del_sublist]. Qed.

Lemma dict_get_del_eq k d :
  NoDup (dict_keys d) -> dict_get k (dict_del k d) = None.
Proof.
  unfold dict_keys. induction d as [|[k0 v0] d IH]; simpl; [done|].
  intros [Hk Hd]%NoDup_cons. case_decide; subst; simpl.
  - destruct (dict_get k0 d) eqn:E; [|done].
    exfalso. apply Hk. apply dict_get_keys. eauto.
  - case_decide; [done|]. auto.
Qed.

End Dict.

(** ** The topological sort *)

Section Order.
Context {py : Python} {Config : Type}.
Implicit Types (cs : dict (Component (Config := Config))) (st : dfs).
Implicit Types (w : Workflow (Config := Config)).

Lemma precedes_app_l a b l k : precedes a b l -> precedes a b (l ++ k).
Proof.
  intros (i & j & Hi & Hj & Hij). exists i, j.
  split_and!; [| |done]; rewrite lookup_app_l; eauto using lookup_lt_Some.
Qed.

Lemma precedes_snoc a b l : a ∈ l -> precedes a b (l ++ [b]).
Proof.
  intros [i Hi]%list_elem_of_lookup. exists i, (length l).
  pose proof (lookup_lt_Some _ _ _ Hi).
  split_and!; [by rewrite lookup_app_l | | done].
  rewrite lookup_app_r by lia. by rewrite Nat.sub_diag.
Qed.

Lemma precedes_trans a b c l :
  NoDup l -> precedes a b l -> precedes b c l -> precedes a c l.
Proof.
  intros Hnd (i & j & Hi & Hj & Hij) (j' & k & Hj' & Hk & Hjk).
  assert (j = j') as <- by eauto using NoDup_lookup.
  exists i, k. split_and!; [done..|lia].
Qed.

Lemma precedes_irrefl a l : NoDup l -> ¬ precedes a a l.
Proof.
  intros Hnd (i & j & Hi & Hj & Hij).
  assert (i = j) by eauto using NoDup_lookup. lia.
Qed.

Lemma precedes_elem_of a b l : precedes a b l -> a ∈ l ∧ b ∈ l.
Proof.
  intros (i & j & Hi & Hj & _). split; apply list_elem_of_lookup; eauto.
Qed.

Lemma prefix_list_to_set (l k : list string) :
  l `prefix_of` k -> list_to_set (C := gset string) l ⊆ list_to_set k.
Proof. intros [l' ->]. rewrite list_to_set_app_L. set_solver. Qed.

Lemma dfs_init_inv cs : dfs_inv cs dfs_init.
Proof.
  split; simpl; [done | constructor | | | set_solver];
    by setoid_rewrite elem_of_nil.
Qed.

Lemma dfs_inv_visited_mono cs st st' :
  dfs_inv cs st -> dfs_inv cs st' -> order st `prefix_of` order st' ->
  visited st ⊆ visited st'.
Proof.
  intros H1 H2 Hp. rewrite (inv_visited _ _ H1), (inv_visited _ _ H2).
  by apply prefix_list_to_set.
Qed.

Lemma visit_dependencies_spec cs v deps st st' :
  visits cs v -> dfs_inv cs st ->
  visit_dependencies cs v deps st = Visited st' ->
  dfs_inv cs st' ∧ temp_visited st' = temp_visited st
  ∧ order st `prefix_of` order st'
  ∧ ∀ d, d ∈ deps -> dict_mem d cs = true -> d ∈ visited st'.
Proof.
  intros Hv. revert st. induction deps as [|d deps IH]; intros st Hinv; simpl.
  - intros [= <-]. split_and!; [done..|]. by setoid_rewrite elem_of_nil.
  - destruct (dict_mem d cs) eqn:Hd.
    + destruct (v d st) as [st1|] eqn:Hvd; [|done]. intros Hrest.
      destruct (Hv d st st1) as (Hinv1 & Ht1 & Hp1 & Hd1);
        [done | by apply dict_mem_keys | done |].
      destruct (IH st1 Hinv1 Hrest) as (Hinv' & Ht' & Hp' & Hall).
      split_and!; [done | congruence | by etrans |].
      intros d' [->|?]%elem_of_cons ?; [|by auto].
      by apply (dfs_inv_visited_mono cs st1 st').
    + intros Hrest. destruct (IH st Hinv Hrest) as (Hinv' & Ht' & Hp' & Hall).
      split_and!; [done..|].
      intros d' [->|?]%elem_of_cons ?; [congruence | by auto].
Qed.

Lemma visit_S frames cs node st :
  visit (S frames) cs node st
  = if decide (node ∈ temp_visited st) then
      DfsRaised (ValueError (circular_msg node))
    else if decide (node ∈ visited st) then Visited st
    else
      match dict_get node cs with
      | None => DfsRaised (KeyError node)
      | Some c =>
          match frames with
          | O => DfsRaised RecursionError
          | S _ =>
              match visit_dependencies cs (visit frames cs)
                      (get_dependencies c)
                      {| visited := visited st;
                         temp_visited := temp_visited st ∪ {[node]};
                         order := order st |} with
              | Visited st2 =>
                  Visited {| visited := visited st2 ∪ {[node]};
                             temp_visited := temp_visited st2 ∖ {[node]};
                             order := order st2 ++ [node] |}
              | DfsRaised e => DfsRaised e
              end
          end
      end.
Proof. done. Qed.

Lemma visit_spec fuel cs : visits cs (visit fuel cs).
Proof.
  induction fuel as [|fuel IH]; intros node st st' Hinv Hnode; [done|].
  rewrite visit_S.
  destruct (decide (node ∈ temp_visited st)) as [|Hnt]; [done|].
  destruct (decide (node ∈ visited st)) as [Hvis|Hnv].
  { intros [= <-]. by split_and!. }
  destruct (dict_get node cs) as [c|] eqn:Hc; [|done].
  destruct fuel as [|fuel']; [done|]. set (fuel := S fuel') in *.
  set (st1 := {| visited := visited st;
                 temp_visited := temp_visited st ∪ {[node]};
                 order := order st |}).
  destruct (visit_dependencies cs (visit fuel cs) (get_dependencies c) st1)
    as [st2|] eqn:Hloop; [|done].
  intros [= <-]. simpl.
  assert (dfs_inv cs st1) as Hinv1.
  { destruct Hinv. split; simpl; [done..|]. set_solver. }
  destruct (visit_dependencies_spec _ _ _ _ _ IH Hinv1 Hloop)
    as (Hinv2 & Ht2 & Hp2 & Hdeps).
  simpl in Ht2, Hp2.
  assert (node ∉ visited st2) as Hfresh.
  { pose proof (inv_disjoint _ _ Hinv2). set_solver. }
  assert (node ∉ order st2) as Hfresh'.
  { rewrite (inv_visited _ _ Hinv2) in Hfresh. set_solver. }
  split_and!.
  - split; simpl.
    + rewrite list_to_set_app_L, (inv_visited _ _ Hinv2). set_solver.
    + apply NoDup_app. split_and!; [by apply (inv_nodup _ _ Hinv2) | | ].
      * intros x Hx Hx'%list_elem_of_singleton. by subst.
      * apply NoDup_singleton.
    + intros n [?|Hn%list_elem_of_singleton]%elem_of_app; [|by subst].
      by apply (inv_keys _ _ Hinv2).
    + intros a b [Hb|Hb%list_elem_of_singleton]%elem_of_app Hedge.
      * apply precedes_app_l. by apply (inv_edges _ _ Hinv2).
      * subst b. apply precedes_snoc.
        destruct Hedge as [(c' & Hc' & Ha) Hmem].
        assert (c' = c) as -> by congruence.
        specialize (Hdeps a Ha Hmem).
        rewrite (inv_visited _ _ Hinv2) in Hdeps. set_solver.
    + pose proof (inv_disjoint _ _ Hinv2). set_solver.
  - rewrite Ht2. set_solver.
  - by apply prefix_app_r.
  - set_solver.
Qed.

Lemma visit_all_spec fuel cs names st st' :
  dfs_inv cs st -> (∀ n, n ∈ names -> n ∈ dict_keys cs) ->
  visit_all fuel cs names st = Visited st' ->
  dfs_inv cs st' ∧ temp_visited st' = temp_visited st
  ∧ order st `prefix_of` order st'
  ∧ ∀ n, n ∈ names -> n ∈ visited st'.
Proof.
  revert st. induction names as [|n names IH]; intros st Hinv Hkeys; simpl.
  - intros [= <-]. split_and!; [done..|]. by setoid_rewrite elem_of_nil.
  - assert (∀ n', n' ∈ names -> n' ∈ dict_keys cs) as Hkeys'.
    { intros ??. apply Hkeys. by right. }
    destruct (decide (n ∈ visited st)) as [Hvis|Hnv].
    + intros Hrest.
      destruct (IH st Hinv Hkeys' Hrest) as (Hinv' & Ht' & Hp' & Hall).
      split_and!; [done..|].
      intros n' [->|?]%elem_of_cons; [|by auto].
      by apply (dfs_inv_visited_mono cs st st').
    + destruct (visit fuel cs n st) as [st1|] eqn:Hvn; [|done]. intros Hrest.
      destruct (visit_spec fuel cs n st st1) as (Hinv1 & Ht1 & Hp1 & Hn1);
        [done | apply Hkeys; by left | done |].
      destruct (IH st1 Hinv1 Hkeys' Hrest) as (Hinv' & Ht' & Hp' & Hall).
      split_and!; [done | congruence | by etrans |].
      intros n' [->|?]%elem_of_cons; [|by auto].
      by apply (dfs_inv_visited_mono cs st1 st').
Qed.

(** What [_update_execution_order] has computed when it returns *)
Lemma update_done w w' :
  _update_execution_order w = Done w' ->
  components w' = components w ∧ wf_status w' = wf_status w
  ∧ NoDup (execution_order w')
  ∧ (∀ n, n ∈ execution_order w' ↔ n ∈ dict_keys (components w))
  ∧ (∀ a b, edge (components w) a b -> precedes a b (execution_order w')).
Proof.
  unfold _update_execution_order.
  destruct (visit_all _ _ _ _) as [st|] eqn:Hall; [|done].
  intros [= <-]. simpl.
  destruct (visit_all_spec _ _ _ _ _ (dfs_init_inv _) (λ n H, H) Hall)
    as (Hinv & _ & _ & Hvis).
  assert (∀ n, n ∈ order st ↔ n ∈ dict_keys (components w)) as Hiff.
  { intros n. split; [by apply (inv_keys _ _ Hinv)|].
    intros Hn%Hvis. rewrite (inv_visited _ _ Hinv) in Hn. set_solver. }
  split_and!; [done | done | by apply (inv_nodup _ _ Hinv) | done |].
  intros a b Hedge. apply (inv_edges _ _ Hinv); [|done].
  apply Hiff, dict_get_keys. destruct Hedge as [(c & -> & _) _]. eauto.
Qed.

Lemma update_raised w e w' :
  _update_execution_order w = Raised e w' -> w' = w.
Proof.
  unfold _update_execution_order.
  destruct (visit_all _ _ _ _); [done|]. by intros [= _ <-].
Qed.

Lemma update_components w :
  components (workflow_of (_update_execution_order w)) = components w.
Proof.
  destruct (_update_execution_order w) eqn:E; simpl.
  - by apply update_done in E as (-> & _).
  - by apply update_raised in E as ->.
Qed.

End Order.

(** ** What the topological sort can raise *)

Section Raising.
Context {py : Python} {Config : Type}.
Implicit Types (cs : dict (Component (Config := Config))) (st : dfs).
Implicit Types (w : Workflow (Config := Config)).

Lemma size_list_to_set_le (l : list string) :
  size (list_to_set (C := gset string) l) ≤ length l.
Proof.
  induction l as [|x l IH].
  - rewrite list_to_set_nil, size_empty. done.
  - rewrite list_to_set_cons, size_union_alt, size_singleton.
    assert (size (list_to_set (C := gset string) l ∖ {[x]})
            ≤ size (list_to_set (C := gset string) l)) as Hle
      by (apply subseteq_size; set_solver).
    simpl. lia.
Qed.

Lemma visit_dependencies_raised cs v deps st e T :
  visits cs v ->
  (∀ node st e, dfs_inv cs st -> node ∈ dict_keys cs ->
                temp_visited st = T -> v node st = DfsRaised e -> circular e) ->
  dfs_inv cs st -> temp_visited st = T ->
  visit_dependencies cs v deps st = DfsRaised e -> circular e.
Proof.
  intros Hv Hraise. revert st.
  induction deps as [|d deps IH]; intros st Hinv HT; simpl; [done|].
  destruct (dict_mem d cs) eqn:Hd; [|by apply IH].
  apply dict_mem_keys in Hd.
  destruct (v d st) as [st1|e1] eqn:Hvd.
  - destruct (Hv d st st1) as (Hinv1 & Ht1 & _); [done..|].
    apply IH; [done | congruence].
  - intros [= <-]. eauto.
Qed.

(** With more frames than there are components, the traversal never
    reaches the recursion limit: every nested call has put one more
    component into [temp_visited]. *)
Lemma visit_raised fuel cs node st e :
  dfs_inv cs st -> node ∈ dict_keys cs ->
  temp_visited st ⊆ list_to_set (dict_keys cs) ->
  size (list_to_set (C := gset string) (dict_keys cs))
    < fuel + size (temp_visited st) ->
  visit fuel cs node st = DfsRaised e -> circular e.
Proof.
  revert node st e.
  induction fuel as [|fuel IH]; intros node st e Hinv Hnode Hsub Hsize.
  { apply subseteq_size in Hsub. lia. }
  rewrite visit_S.
  destruct (decide (node ∈ temp_visited st)) as [|Hnt].
  { intros [= <-]. by eexists. }
  destruct (decide (node ∈ visited st)) as [|Hnv]; [done|].
  destruct (dict_get node cs) as [c|] eqn:Hc.
  2:{ apply dict_get_keys in Hnode as [? ?]. congruence. }
  set (st1 := {| visited := visited st;
                 temp_visited := temp_visited st ∪ {[node]};
                 order := order st |}).
  assert (temp_visited st1 ⊆ list_to_set (dict_keys cs)) as Hsub1.
  { simpl. apply (elem_of_list_to_set (C := gset string)) in Hnode.
    set_solver. }
  assert (size (temp_visited st1) = S (size (temp_visited st))) as Hsize1.
  { simpl. rewrite size_union, size_singleton by set_solver. lia. }
  destruct fuel as [|fuel'].
  { apply subseteq_size in Hsub1. lia. }
  set (fuel := S fuel') in *.
  destruct (visit_dependencies cs (visit fuel cs) (get_dependencies c) st1)
    as [st2|e2] eqn:Hloop; [done|].
  intros [= <-].
  assert (dfs_inv cs st1) as Hinv1.
  { destruct Hinv. split; simpl; [done..|]. set_solver. }
  eapply (visit_dependencies_raised cs _ _ st1 e2 (temp_visited st1));
    [apply visit_spec | | done | done | done].
  intros node' st' e' Hinv' Hnode' HT'.
  apply IH; [done | done | by rewrite HT' |]. rewrite HT', Hsize1. lia.
Qed.

Lemma visit_all_raised fuel cs names st e :
  dfs_inv cs st -> temp_visited st = ∅ ->
  (∀ n, n ∈ names -> n ∈ dict_keys cs) ->
  size (list_to_set (C := gset string) (dict_keys cs)) < fuel ->
  visit_all fuel cs names st = DfsRaised e -> circular e.
Proof.
  intros Hinv HT Hkeys Hfuel. revert st Hinv HT Hkeys.
  induction names as [|n names IH]; intros st Hinv HT Hkeys;
    cbn [visit_all]; [done|].
  assert (∀ n', n' ∈ names -> n' ∈ dict_keys cs) as Hkeys'.
  { intros ??. apply Hkeys. by right. }
  destruct (decide (n ∈ visited st)); [by apply IH|].
  destruct (visit fuel cs n st) as [st1|e1] eqn:Hvn.
  - destruct (visit_spec fuel cs n st st1) as (Hinv1 & Ht1 & _);
      [done | apply Hkeys; by left | done |].
    apply IH; [done | congruence | done].
  - intros [= <-].
    eapply visit_raised; [done | apply Hkeys; by left | | | done].
    + rewrite HT. set_solver.
    + rewrite HT, size_empty. lia.
Qed.

Lemma recursion_limit_enough cs :
  length cs < recursion_limit ->
  size (list_to_set (C := gset string) (dict_keys cs)) < recursion_limit.
Proof.
  pose proof (size_list_to_set_le (dict_keys cs)) as Hle.
  unfold dict_keys in *. rewrite length_fmap in Hle. lia.
Qed.

(** When the interpreter allows more frames than there are components,
    the only exception of [_update_execution_order] is the circular
    dependency error: no call overflows and no lookup fails. *)
Lemma update_raised_circular w e w' :
  length (components w) < recursion_limit ->
  _update_execution_order w = Raised e w' -> circular e.
Proof.
  intros Hlimit. unfold _update_execution_order.
  destruct (visit_all _ _ _ _) as [|e'] eqn:Hall; [done|].
  intros [= <- _].
  eapply visit_all_raised;
    [apply dfs_init_inv | done | done | by apply recursion_limit_enough
    | apply Hall].
Qed.

(** A graph that has a topological order has no cycle. *)
Lemma update_done_acyclic w w' :
  _update_execution_order w = Done w' -> ¬ has_cycle (components w).
Proof.
  intros (_ & _ & Hnd & _ & Hedges)%update_done [n Hn].
  assert (∀ a b, tc (edge (components w)) a b ->
                 precedes a b (execution_order w')) as Htc.
  { intros a b Hab. induction Hab; [by auto|].
    eapply precedes_trans; [done | by apply Hedges | done]. }
  by apply (precedes_irrefl n (execution_order w')), Htc.
Qed.

End Raising.

(** ** The structural operations *)

Section Graph.
Context {py : Python} {Config : Type}.
Implicit Types (cs : dict (Component (Config := Config))).
Implicit Types (c : Component (Config := Config)).
Implicit Types (w : Workflow (Config := Config)).

Lemma elem_of_add_dependency a s c :
  a ∈ dependencies (add_dependency s c) ↔ a ∈ dependencies c ∨ a = s.
Proof.
  unfold add_dependency. case_decide; simpl.
  - split; [by left | by intros [?| ->]].
  - by rewrite elem_of_app, list_elem_of_singleton.
Qed.

Lemma elem_of_add_output a t c :
  a ∈ outputs (add_output t c) ↔ a ∈ outputs c ∨ a = t.
Proof.
  unfold add_output. case_decide; simpl.
  - split; [by left | by intros [?| ->]].
  - by rewrite elem_of_app, list_elem_of_singleton.
Qed.

Lemma outputs_add_dependency s c :
  outputs (add_dependency s c) = outputs c.
Proof. unfold add_dependency. by case_decide. Qed.

Lemma dependencies_add_output t c :
  dependencies (add_output t c) = dependencies c.
Proof. unfold add_output. by case_decide. Qed.

(** What [connected] holds under a key, from what was there before *)
Lemma connected_get source target cs k c' :
  dict_get k (connected source target cs) = Some c' ->
  ∃ c, dict_get k cs = Some c
       ∧ (∀ a, a ∈ dependencies c'
               ↔ a ∈ dependencies c ∨ (k = target ∧ a = source))
       ∧ (∀ b, b ∈ outputs c'
               ↔ b ∈ outputs c ∨ (k = source ∧ b = target)).
Proof.
  unfold connected. rewrite !dict_get_update.
  destruct (dict_get k cs) as [c|] eqn:Hc;
    [|by destruct (decide (k = source)), (decide (k = target))].
  destruct (decide (k = source)), (decide (k = target)); simpl;
    intros [= <-]; exists c; (split; [done|]); split; intros x;
    rewrite ?dependencies_add_output, ?elem_of_add_output,
      ?outputs_add_dependency, ?elem_of_add_dependency; naive_solver.
Qed.

Lemma connected_get_old source target cs k c :
  dict_get k cs = Some c ->
  ∃ c', dict_get k (connected source target cs) = Some c'.
Proof.
  unfold connected. rewrite !dict_get_update. intros ->.
  destruct (decide (k = source)), (decide (k = target)); simpl; eauto.
Qed.

Lemma connected_get_other source target cs k :
  k ≠ source -> k ≠ target ->
  dict_get k (connected source target cs) = dict_get k cs.
Proof.
  intros ??. unfold connected. rewrite !dict_get_update.
  by destruct (decide (k = source)), (decide (k = target)).
Qed.

Lemma connected_keys source target cs :
  dict_keys (connected source target cs) = dict_keys cs.
Proof. unfold connected. by rewrite !dict_keys_update. Qed.

Lemma connected_mem source target cs k :
  dict_mem k (connected source target cs) = dict_mem k cs.
Proof. unfold connected. by rewrite !dict_mem_update. Qed.

Lemma connected_edge_old source target cs a b :
  edge cs a b -> edge (connected source target cs) a b.
Proof.
  intros [(c & Hc & Ha) Hmem]. split; [|by rewrite connected_mem].
  destruct (connected_get_old source target cs b c Hc) as [c' Hc'].
  exists c'. split; [done|].
  destruct (connected_get _ _ _ _ _ Hc') as (c0 & Hc0 & Hdeps & _).
  apply Hdeps. left. congruence.
Qed.

Lemma connected_edge_new source target cs :
  dict_mem source cs = true -> dict_mem target cs = true ->
  edge (connected source target cs) source target.
Proof.
  intros Hs [c Hc]%dict_mem_true. split; [|by rewrite connected_mem].
  destruct (connected_get_old source target cs target c Hc) as [c' Hc'].
  exists c'. split; [done|].
  destruct (connected_get _ _ _ _ _ Hc') as (c0 & Hc0 & Hdeps & _).
  apply Hdeps. by right.
Qed.

Lemma dict_set_length {V} k (v : V) (d : dict V) :
  dict_mem k d = true -> length (dict_set k v d) = length d.
Proof.
  unfold dict_mem. induction d as [|[k0 v0] d IH]; simpl; [done|].
  destruct (decide (k = k0)); simpl; [done|]. intros ?. f_equal. auto.
Qed.

Lemma dict_update_length {V} k (f : V -> V) (d : dict V) :
  length (dict_update k f d) = length d.
Proof.
  unfold dict_update. destruct (dict_get k d) eqn:E; [|done].
  apply dict_set_length. unfold dict_mem. by rewrite E.
Qed.

Lemma connected_length source target cs :
  length (connected source target cs) = length cs.
Proof. unfold connected. by rewrite !dict_update_length. Qed.

Lemma connect_components_present source target w :
  dict_mem source (components w) = true ->
  dict_mem target (components w) = true ->
  connect_components source target w
  = _update_execution_order
      (set_components (connected source target (components w)) w).
Proof. intros Hs Ht. unfold connect_components. by rewrite Hs, Ht. Qed.

Lemma connect_components_absent source target w :
  dict_mem source (components w) = false
  ∨ dict_mem target (components w) = false ->
  workflow_of (connect_components source target w) = w.
Proof.
  unfold connect_components.
  destruct (dict_mem source (components w)); simpl; [|done].
  destruct (dict_mem target (components w)); simpl; [|done].
  by intros [?|?].
Qed.

Lemma update_done_topological w w' :
  _update_execution_order w = Done w' -> topological w'.
Proof.
  intros (Hcs & _ & Hnd & Hiff & Hedges)%update_done.
  unfold topological. by rewrite Hcs.
Qed.

Lemma up_to_date_topological w : up_to_date w -> topological w.
Proof. apply update_done_topological. Qed.

Lemma built_invariant w :
  built w ->
  NoDup (dict_keys (components w)) ∧ closed (components w) ∧ topological w.
Proof.
  induction 1 as [|w w' n cfg _ (Hnd & Hcl & _) Hadd
                  |w w' source target _ (Hnd & Hcl & _) Hconn].
  - split_and!; [constructor | by intros a b (c & ? & _) |].
    split_and!; [constructor | done | by intros a b [(c & ? & _) _]].
  - unfold add_component in Hadd. simpl in Hadd.
    destruct (dict_mem n (components w)) eqn:Hmem; [done|].
    pose proof (update_done_topological _ _ Hadd) as Htop.
    apply update_done in Hadd as (Hcs & _). simpl in Hcs. rewrite Hcs.
    split_and!; [| |done].
    + rewrite dict_keys_set_new by done. apply NoDup_app.
      split_and!; [done | | apply NoDup_singleton].
      intros x Hx Hx'%list_elem_of_singleton. subst x.
      apply dict_mem_keys in Hx. congruence.
    + intros a b (c & Hc & Ha). rewrite dict_get_set in Hc.
      apply dict_mem_true. rewrite dict_get_set.
      case_decide; [by simplify_eq; apply elem_of_nil in Ha|].
      case_decide; [by eauto|].
      apply dict_mem_true, (Hcl a b). by exists c.
  - destruct (dict_mem source (components w)) eqn:Hs;
      [|by unfold connect_components in Hconn; rewrite Hs in Hconn].
    destruct (dict_mem target (components w)) eqn:Ht;
      [|by unfold connect_components in Hconn; rewrite Hs, Ht in Hconn].
    rewrite connect_components_present in Hconn by done.
    pose proof (update_done_topological _ _ Hconn) as Htop.
    apply update_done in Hconn as (Hcs & _). simpl in Hcs. rewrite Hcs.
    split_and!; [by rewrite connected_keys | | done].
    intros a b (c' & Hc' & Ha). rewrite connected_mem.
    apply connected_get in Hc' as (c & Hc & Hdeps & _).
    apply Hdeps in Ha as [Ha|[_ ->]]; [|done].
    apply (Hcl a b). by exists c.
Qed.

(** C1. In every graph built by calls of [add_component] (on new
    components) and [connect_components] that all returned, the execution
    order is a permutation of the component names, and whenever [a] is
    listed as a dependency of [b], [a] comes before [b] in it. *)
Theorem execution_order_topological w :
  built w ->
  execution_order w ≡ₚ dict_keys (components w)
  ∧ ∀ a b, dependency_of (components w) a b ->
           precedes a b (execution_order w).
Proof.
  intros (Hnd & Hcl & Hnd' & Hiff & Hedges)%built_invariant. split.
  - by apply NoDup_Permutation.
  - intros a b Hdep. apply Hedges. split; [done | by apply (Hcl a b)].
Qed.

(** What a refused connection leaves behind. When [target] already reaches
    [source] along dependency edges, so that the edge [source -> target]
    closes a cycle, and the interpreter allows more frames than there are
    components, [connect_components] raises the circular dependency error
    with the execution order as it was, but the edge is recorded in
    [target]'s dependencies and [source]'s outputs: the lists were changed
    before the traversal found the cycle. *)
Lemma connect_components_refused source target w :
  length (components w) < recursion_limit ->
  dict_mem source (components w) = true ->
  dict_mem target (components w) = true ->
  rtc (edge (components w)) target source ->
  ∃ n w',
    connect_components source target w
      = Raised (ValueError (circular_msg n)) w'
    ∧ execution_order w' = execution_order w
    ∧ wf_status w' = wf_status w
    ∧ components w' = connected source target (components w)
    ∧ dependency_of (components w') source target
    ∧ (∃ c, dict_get source (components w') = Some c
            ∧ target ∈ outputs c)
    ∧ (∀ k, k ≠ source -> k ≠ target ->
            dict_get k (components w') = dict_get k (components w)).
Proof.
  intros Hlimit Hs Ht Hpath. rewrite connect_components_present by done.
  set (w2 := set_components (connected source target (components w)) w).
  assert (has_cycle (components w2)) as Hcycle.
  { exists source. eapply tc_rtc_r.
    - apply tc_once, connected_edge_new; done.
    - eapply rtc_subrel; [|done]. intros a b. apply connected_edge_old. }
  destruct (_update_execution_order w2) as [w'|e w'] eqn:Hupd.
  { by apply update_done_acyclic in Hupd. }
  assert (length (components w2) < recursion_limit) as Hlimit2
    by (simpl; by rewrite connected_length).
  destruct (update_raised_circular _ _ _ Hlimit2 Hupd) as [n ->].
  apply update_raised in Hupd as ->.
  exists n, w2. split_and!; try done; simpl.
  - by destruct (connected_edge_new source target (components w)).
  - apply dict_mem_true in Hs as [c Hc].
    destruct (connected_get_old source target _ source c Hc) as [c' Hc'].
    exists c'. split; [done|].
    destruct (connected_get _ _ _ _ _ Hc') as (c0 & Hc0 & _ & Houts).
    apply Houts. by right.
  - intros k ??. by apply connected_get_other.
Qed.


Lemma evolved_invariant w :
  evolved w -> NoDup (dict_keys (components w)) ∧ mirrored (components w).
Proof.
  induction 1 as [|w n cfg _ (Hnd & Hmi) Hun|w n _ (Hnd & Hmi)
                  |w source target _ (Hnd & Hmi)].
  - split; [constructor | by intros a b ca cb ?].
  - unfold add_component. simpl.
    destruct (dict_mem n (components w)) eqn:Hmem; [done|].
    rewrite update_components. simpl. split.
    + rewrite dict_keys_set_new by done. apply NoDup_app.
      split_and!; [done | | apply NoDup_singleton].
      intros x Hx Hx'%list_elem_of_singleton. subst x.
      apply dict_mem_keys in Hx. congruence.
    + intros a b ca cb. rewrite !dict_get_set.
      repeat case_decide; intros Ha Hb; simplify_eq; simpl.
      * by rewrite !elem_of_nil.
      * destruct (Hun _ _ Hb) as [? _]. by rewrite elem_of_nil.
      * destruct (Hun _ _ Ha) as [_ ?]. by rewrite elem_of_nil.
      * by apply Hmi.
  - unfold remove_component.
    destruct (dict_mem n (components w)) eqn:Hmem; [|done].
    rewrite update_components. simpl. split.
    + by apply dict_keys_del_nodup.
    + intros a b ca cb Ha Hb.
      destruct (decide (a = n)) as [->|];
        [by rewrite dict_get_del_eq in Ha|].
      destruct (decide (b = n)) as [->|];
        [by rewrite dict_get_del_eq in Hb|].
      rewrite dict_get_del_ne in Ha, Hb by done. by apply Hmi.
  - destruct (dict_mem source (components w)) eqn:Hs;
      [|by rewrite connect_components_absent by auto].
    destruct (dict_mem target (components w)) eqn:Ht;
      [|by rewrite connect_components_absent by auto].
    rewrite connect_components_present, update_components by done. simpl.
    split; [by rewrite connected_keys|].
    intros a b ca' cb' Ha Hb.
    apply connected_get in Ha as (ca & Ha & _ & Houts).
    apply connected_get in Hb as (cb & Hb & Hdeps & _).
    rewrite Hdeps, Houts, (Hmi a b ca cb) by done. naive_solver.
Qed.

(** C6 (as the code has it). After any sequence of the three structural
    operations, returning or raising, in which every component is added
    new and under a name that no component of the graph still lists, the
    dependencies and outputs lists mirror each other: for components [a]
    and [b] of the graph, [a] is in [b]'s dependencies exactly when [b] is
    in [a]'s outputs. *)
Theorem evolved_mirrored w : evolved w -> mirrored (components w).
Proof. by intros [_ ?]%evolved_invariant. Qed.

(** The execution order never holds a name twice: an operation that
    returns has recomputed it, and one that raises has left it alone. *)
Lemma update_order_nodup w :
  NoDup (execution_order w) ->
  NoDup (execution_order (workflow_of (_update_execution_order w))).
Proof.
  intros Hnd. destruct (_update_execution_order w) eqn:E; simpl.
  - by apply update_done in E as (_ & _ & ? & _).
  - by apply update_raised in E as ->.
Qed.

Lemma reachable_order_nodup w : reachable w -> NoDup (execution_order w).
Proof.
  induction 1 as [|w n cfg _ IH|w n _ IH|w source target _ IH].
  - constructor.
  - unfold add_component. destruct (dict_mem _ _); [done|].
    by apply update_order_nodup.
  - unfold remove_component. destruct (dict_mem _ _); [|done].
    by apply update_order_nodup.
  - unfold connect_components.
    destruct (negb _); [done|]. destruct (negb _); [done|].
    by apply update_order_nodup.
Qed.

End Graph.

(** ** Cycle detection is exact *)

Section Cycles.
Context {py : Python} {Config : Type}.
Implicit Types (cs : dict (Component (Config := Config))) (st : dfs).
Implicit Types (c : Component (Config := Config)).
Implicit Types (w : Workflow (Config := Config)).

Lemma visit_dependencies_raised_cycle cs v deps st e T
    (ok : string -> Prop) (P : Exception -> Prop) :
  visits cs v ->
  (∀ node st e, dfs_inv cs st -> node ∈ dict_keys cs ->
                temp_visited st = T -> ok node ->
                v node st = DfsRaised e -> P e) ->
  dfs_inv cs st -> temp_visited st = T ->
  (∀ d, d ∈ deps -> dict_mem d cs = true -> ok d) ->
  visit_dependencies cs v deps st = DfsRaised e -> P e.
Proof.
  intros Hv Hraise. revert st.
  induction deps as [|d deps IH]; intros st Hinv HT Hok; simpl; [done|].
  assert (∀ d', d' ∈ deps -> dict_mem d' cs = true -> ok d') as Hok'.
  { intros d' ?. apply Hok. by right. }
  destruct (dict_mem d cs) eqn:Hd; [|by apply IH].
  pose proof (Hok d (list_elem_of_here _ _) Hd) as Hokd.
  apply dict_mem_keys in Hd.
  destruct (v d st) as [st1|e1] eqn:Hvd.
  - destruct (Hv d st st1) as (Hinv1 & Ht1 & _); [done..|].
    apply IH; [done | congruence | done].
  - intros [= <-]. eauto.
Qed.

(** While [node] is being visited, it is a transitive dependency of every
    component still on the stack, so meeting one of them again closes a
    cycle. Whatever the number of frames, the traversal raises nothing
    but the circular dependency error, on a cycle, and [RecursionError]. *)
Lemma visit_raised_cycle fuel cs node st e :
  dfs_inv cs st -> node ∈ dict_keys cs ->
  (∀ t, t ∈ temp_visited st -> tc (edge cs) node t) ->
  visit fuel cs node st = DfsRaised e ->
  (circular e ∧ has_cycle cs) ∨ e = RecursionError.
Proof.
  revert node st e.
  induction fuel as [|fuel IH]; intros node st e Hinv Hnode Hstack.
  { intros [= <-]. by right. }
  rewrite visit_S.
  destruct (decide (node ∈ temp_visited st)) as [Hin|Hnt].
  { intros [= <-]. left. split; [by eexists|]. exists node. by apply Hstack. }
  destruct (decide (node ∈ visited st)) as [|Hnv]; [done|].
  destruct (dict_get node cs) as [c|] eqn:Hc.
  2:{ apply dict_get_keys in Hnode as [? ?]. congruence. }
  destruct fuel as [|fuel']; [intros [= <-]; by right|].
  set (fuel := S fuel') in *.
  set (st1 := {| visited := visited st;
                 temp_visited := temp_visited st ∪ {[node]};
                 order := order st |}).
  destruct (visit_dependencies cs (visit fuel cs) (get_dependencies c) st1)
    as [st2|e2] eqn:Hloop; [done|].
  intros [= <-].
  assert (dfs_inv cs st1) as Hinv1.
  { destruct Hinv. split; simpl; [done..|]. set_solver. }
  eapply (visit_dependencies_raised_cycle cs _ _ st1 e2 (temp_visited st1)
            (fun d => edge cs d node));
    [apply visit_spec | | done | done | | done].
  - intros node' st' e' Hinv' Hnode' HT' Hedge.
    apply IH; [done | done |].
    rewrite HT'. simpl. intros t [Ht|Ht]%elem_of_union.
    + eapply tc_l; [done | by apply Hstack].
    + apply elem_of_singleton in Ht as ->. by apply tc_once.
  - intros d Hd Hmem. split; [|done]. by exists c.
Qed.

Lemma visit_all_raised_cycle fuel cs names st e :
  dfs_inv cs st -> temp_visited st = ∅ ->
  (∀ n, n ∈ names -> n ∈ dict_keys cs) ->
  visit_all fuel cs names st = DfsRaised e ->
  (circular e ∧ has_cycle cs) ∨ e = RecursionError.
Proof.
  intros Hinv HT Hkeys. revert st Hinv HT Hkeys.
  induction names as [|n names IH]; intros st Hinv HT Hkeys;
    cbn [visit_all]; [done|].
  assert (∀ n', n' ∈ names -> n' ∈ dict_keys cs) as Hkeys'.
  { intros ??. apply Hkeys. by right. }
  destruct (decide (n ∈ visited st)); [by apply IH|].
  destruct (visit fuel cs n st) as [st1|e1] eqn:Hvn.
  - destruct (visit_spec fuel cs n st st1) as (Hinv1 & Ht1 & _);
      [done | apply Hkeys; by left | done |].
    apply IH; [done | congruence | done].
  - intros [= <-].
    eapply visit_raised_cycle; [done | apply Hkeys; by left | | done].
    rewrite HT. set_solver.
Qed.

Lemma update_raised_cycle w e w' :
  _update_execution_order w = Raised e w' ->
  (circular e ∧ has_cycle (components w)) ∨ e = RecursionError.
Proof.
  unfold _update_execution_order.
  destruct (visit_all _ _ _ _) as [|e'] eqn:Hall; [done|].
  intros [= <- _].
  eapply visit_all_raised_cycle; [apply dfs_init_inv | done | done | done].
Qed.

(** With more frames than components, the sort returns on a graph
    without cycles. *)
Lemma update_acyclic_done w :
  length (components w) < recursion_limit ->
  ¬ has_cycle (components w) ->
  ∃ w', _update_execution_order w = Done w'.
Proof.
  intros Hlimit Hno.
  destruct (_update_execution_order w) as [w'|e w'] eqn:Hupd; [by eauto|].
  destruct (update_raised_cycle _ _ _ Hupd) as [[_ ?]| ->]; [done|].
  by destruct (update_raised_circular _ _ _ Hlimit Hupd).
Qed.



Lemma settled_reachable w : settled w -> reachable w.
Proof. induction 1; by constructor. Qed.



End Cycles.

(** ** Execution *)

Section Run.
Context {py : Python} {Data Config : Type}.
Context (component_execute :
           Component (Config := Config) -> gmap string Data
           -> Outcome (Data := Data) * Component (Config := Config)).
Implicit Types (s : run_state (Data := Data) (Config := Config)).
Implicit Types (w : Workflow (Config := Config)).
Implicit Types (c : Component (Config := Config)).

Lemma prepare_fold (outs acc : gmap string Data) deps k :
  foldl (fun inputs dependency =>
           match outs !! dependency with
           | Some v => <[dependency := v]> inputs
           | None => inputs
           end) acc deps !! k
  = if decide (k ∈ deps) then
      match outs !! k with Some v => Some v | None => acc !! k end
    else acc !! k.
Proof.
  revert acc. induction deps as [|d deps IH]; intros acc; simpl.
  { destruct (decide (k ∈ [])) as [H|]; [by apply elem_of_nil in H | done]. }
  rewrite IH. destruct (decide (k = d)) as [->|Hne].
  - rewrite (decide_True (P := d ∈ d :: deps)) by left.
    destruct (outs !! d) eqn:Hd; [rewrite lookup_insert_eq|];
      by destruct (decide (d ∈ deps)).
  - assert ((match outs !! d with
             | Some v => <[d:=v]> acc
             | None => acc
             end) !! k = acc !! k) as ->.
    { destruct (outs !! d); [by rewrite lookup_insert_ne|done]. }
    destruct (decide (k ∈ deps)).
    + by rewrite (decide_True (P := k ∈ d :: deps)) by by right.
    + rewrite (decide_False (P := k ∈ d :: deps)); [done|].
      by intros [?|?]%elem_of_cons.
Qed.

Lemma prepare_lookup c (outs : gmap string Data) k :
  _prepare_component_inputs c outs !! k
  = if decide (k ∈ dependencies c) then outs !! k else None.
Proof.
  unfold _prepare_component_inputs, get_dependencies. rewrite prepare_fold.
  destruct (decide (k ∈ dependencies c)); [|done]. by destruct (outs !! k).
Qed.

Lemma call_component_spec n c s :
  let called := call_component component_execute n c s in
  run_log called.2
  = run_log s
      ++ [mkInvocation n
            (_prepare_component_inputs
               (set_status ComponentStatus.RUNNING c) (run_outputs s))
            called.1]
  ∧ run_result called.2 = run_result s
  ∧ run_outputs called.2 = run_outputs s
  ∧ wf_status (run_wf called.2) = wf_status (run_wf s)
  ∧ execution_order (run_wf called.2) = execution_order (run_wf s)
  ∧ ∃ c', components (run_wf called.2)
          = dict_set n c' (components (run_wf s)).
Proof. simpl. split_and!; try done. by eexists. Qed.

Lemma good_store n r s s1 inputs :
  good s ->
  result_status r ≠ ComponentStatus.FAILED ->
  run_log s1 = run_log s ++ [mkInvocation n inputs (Returns r)] ->
  run_result s1 = run_result s ->
  wf_status (run_wf s1) = wf_status (run_wf s) ->
  good (store_output n r (store_result n r s1)).
Proof.
  intros [Hout Hres Herr Hst Hwst] Hr Hlog Hresult Hwf. split; simpl.
  - rewrite Hlog. intros i [?|Hi%list_elem_of_singleton]%elem_of_app;
      [by auto|]. subst i. by eexists.
  - intros n'. rewrite Hlog, Hresult, fmap_app, elem_of_app. simpl.
    rewrite list_elem_of_singleton, <- Hres, lookup_insert.
    case_decide; subst; naive_solver.
  - by rewrite Hresult.
  - by rewrite Hresult.
  - by rewrite Hwf.
Qed.

(** How the loop ends when it starts from a state in which nothing has
    failed: it runs to the end of the order, or stops at the first
    component that fails, raises, or is missing from the mapping. *)
Lemma run_loop_post names done s :
  good s -> inv_name <$> run_log s = done ->
  match run_loop component_execute names s with
  | Normal s' =>
      (good s' ∧ inv_name <$> run_log s' = done ++ names)
      ∨ (∃ s0 i r,
           good s0 ∧ run_log s' = run_log s0 ++ [i]
           ∧ inv_outcome i = Returns r
           ∧ result_status r = ComponentStatus.FAILED
           ∧ (inv_name <$> run_log s') `prefix_of` (done ++ names)
           ∧ wr_status (run_result s') = WorkflowStatus.FAILED
           ∧ component_results (run_result s')
             = <[inv_name i := r]> (component_results (run_result s0))
           ∧ wr_errors (run_result s') = errors r
           ∧ wf_status (run_wf s') = WorkflowStatus.FAILED)
  | Excepted e s' =>
      (inv_name <$> run_log s') `prefix_of` (done ++ names)
      ∧ wr_errors (run_result s') = []
      ∧ (good s'
         ∨ ∃ s0 i, good s0 ∧ run_log s' = run_log s0 ++ [i]
                   ∧ inv_outcome i = Raises e)
  end.
Proof.
  revert done s. induction names as [|n names IH]; intros done s Hgood Hdone.
  { left. by rewrite app_nil_r. }
  cbn [run_loop].
  destruct (dict_get n (components (run_wf s))) as [c|] eqn:Hc.
  2:{ split_and!; [rewrite Hdone; by apply prefix_app_r
                  | by destruct Hgood | by left]. }
  destruct (call_component_spec n c s) as (Hlog & Hres & Houts & Hwf & _).
  destruct (call_component component_execute n c s) as [[r|e] s1] eqn:Hcall;
    simpl in *.
  - assert (inv_name <$> run_log s1 = done ++ [n]) as Hnames.
    { by rewrite Hlog, fmap_app, Hdone. }
    case_decide as Hr.
    + right. eexists s, _, r. split_and!; try done; simpl.
      * rewrite Hnames. apply prefix_app, prefix_cons, prefix_nil.
      * by rewrite Hres.
      * rewrite Hres. by destruct Hgood as [_ _ -> _ _].
    + specialize (IH (done ++ [n])
                     (store_output n r (store_result n r s1))).
      rewrite <- app_assoc in IH. apply IH; [|done].
      by eapply good_store.
  - split_and!.
    + rewrite Hlog, fmap_app, Hdone. apply prefix_app, prefix_cons, prefix_nil.
    + rewrite Hres. by destruct Hgood.
    + right. by eexists s, _.
Qed.

Lemma run_loop_outputs_stored names s :
  outputs_stored s ->
  outputs_stored (loop_state (run_loop component_execute names s)).
Proof.
  revert s. induction names as [|n names IH]; intros s Hs; [done|].
  cbn [run_loop].
  destruct (dict_get n (components (run_wf s))) as [c|] eqn:Hc; [|done].
  destruct (call_component_spec n c s) as (_ & Hres & Houts & _).
  destruct (call_component component_execute n c s) as [[r|e] s1] eqn:Hcall;
    simpl in *.
  - case_decide as Hr.
    + intros n' r'. simpl. rewrite Hres, Houts, lookup_insert.
      case_decide; [by intros [= <-]|]. apply Hs.
    + apply IH. intros n' r'. simpl. rewrite Hres, Houts, !lookup_insert.
      case_decide; [by intros [= <-]|]. apply Hs.
  - intros n' r'. rewrite Hres, Houts. apply Hs.
Qed.

Lemma run_loop_outputs_frame names s k :
  k ∉ names ->
  run_outputs (loop_state (run_loop component_execute names s)) !! k
  = run_outputs s !! k.
Proof.
  revert s. induction names as [|n names IH]; intros s Hk; [done|].
  apply not_elem_of_cons in Hk as [Hne Hk].
  cbn [run_loop].
  destruct (dict_get n (components (run_wf s))) as [c|] eqn:Hc; [|done].
  destruct (call_component_spec n c s) as (_ & _ & Houts & _).
  destruct (call_component component_execute n c s) as [[r|e] s1] eqn:Hcall;
    simpl in *.
  - case_decide as Hr; simpl; [by rewrite Houts|].
    rewrite IH by done. simpl. by rewrite lookup_insert_ne, Houts.
  - by rewrite Houts.
Qed.

Lemma finish_fields (r : loop_result (Data := Data) (Config := Config)) :
  component_results (run_result (finish r))
  = component_results (run_result (loop_state r))
  ∧ run_outputs (finish r) = run_outputs (loop_state r)
  ∧ run_log (finish r) = run_log (loop_state r).
Proof. destruct r; simpl; [by case_decide|done]. Qed.

(** *** The calls of a run, one by one *)

Lemma call_component_outcome n c s :
  (call_component component_execute n c s).1
  = (component_execute (set_status ComponentStatus.RUNNING c)
       (_prepare_component_inputs c (run_outputs s))).1.
Proof. done. Qed.

Lemma output_table_keep (table : gmap string Data) i :
  unsuccessful i -> output_table table [i] = table.
Proof.
  unfold unsuccessful, output_table. simpl.
  destruct (inv_outcome i) as [r|]; [|done]. intros Hr.
  by rewrite decide_True.
Qed.

Lemma output_table_store (table : gmap string Data) i r log :
  inv_outcome i = Returns r ->
  result_status r ≠ ComponentStatus.FAILED ->
  output_table table (i :: log)
  = output_table (<[inv_name i := data r]> table) log.
Proof.
  intros Hi Hr. unfold output_table. simpl. rewrite Hi.
  by rewrite decide_False.
Qed.

(** The output table is the one the logged calls give. *)
Lemma run_loop_table names s :
  ∃ new,
    run_log (loop_state (run_loop component_execute names s))
    = run_log s ++ new
    ∧ run_outputs (loop_state (run_loop component_execute names s))
      = output_table (run_outputs s) new.
Proof.
  revert s. induction names as [|n names IH]; intros s; cbn [run_loop].
  { exists []. by rewrite app_nil_r. }
  destruct (dict_get n (components (run_wf s))) as [c|] eqn:Hc.
  2:{ exists []. by rewrite app_nil_r. }
  destruct (call_component_spec n c s) as (Hlog & _ & Houts & _).
  set (i0 := mkInvocation n
               (_prepare_component_inputs
                  (set_status ComponentStatus.RUNNING c) (run_outputs s))
               (call_component component_execute n c s).1) in *.
  assert (inv_outcome i0 = (call_component component_execute n c s).1)
    as Hi0 by done.
  destruct (call_component component_execute n c s) as [[r|e] s1] eqn:Hcall;
    cbn [fst snd] in Hlog, Houts, Hi0.
  - destruct (decide (result_status r = ComponentStatus.FAILED)) as [Hr|Hr].
    + exists [i0]. cbn [loop_state fail_run store_result run_log run_outputs].
      split; [done|]. rewrite output_table_keep; [done|].
      unfold unsuccessful. by rewrite Hi0.
    + destruct (IH (store_output n r (store_result n r s1)))
        as (new & Hlog' & Houts').
      cbn [store_output store_result run_log run_outputs] in Hlog', Houts'.
      exists (i0 :: new). split.
      * by rewrite Hlog', Hlog, <- app_assoc.
      * rewrite Houts', Houts. by rewrite (output_table_store _ i0 r).
  - exists [i0]. cbn [loop_state run_log run_outputs].
    split; [done|]. rewrite output_table_keep; [done|].
    unfold unsuccessful. by rewrite Hi0.
Qed.

(** Every call is made on the component of its name, as the workflow had
    it before the run, with the inputs prepared from the table that the
    earlier calls left. *)
Lemma run_loop_traced w names ran s :
  NoDup (execution_order w) ->
  ran ++ names = execution_order w ->
  (∀ m, m ∉ ran ->
        dict_get m (components (run_wf s)) = dict_get m (components w)) ->
  ∃ new,
    run_log (loop_state (run_loop component_execute names s))
    = run_log s ++ new
    ∧ ∀ before i after,
        new = before ++ i :: after ->
        ∃ c, dict_get (inv_name i) (components w) = Some c
             ∧ made_on component_execute c i
             ∧ inv_inputs i
               = _prepare_component_inputs c
                   (output_table (run_outputs s) before).
Proof.
  intros Hnd. revert ran s.
  induction names as [|n names IH]; intros ran s Horder Hsame;
    cbn [run_loop].
  { exists []. rewrite app_nil_r. split; [done|]. by intros [|??] ??. }
  destruct (dict_get n (components (run_wf s))) as [c|] eqn:Hc.
  2:{ exists []. rewrite app_nil_r. split; [done|]. by intros [|??] ??. }
  assert (n ∉ ran) as Hn.
  { rewrite <- Horder in Hnd. apply NoDup_app in Hnd as (_ & Hdisj & _).
    intros ?. eapply Hdisj; [done|]. by left. }
  assert (dict_get n (components w) = Some c) as Hcw
    by by rewrite <- Hsame.
  destruct (call_component_spec n c s) as (Hlog & _ & Houts & _ & _ & c' & Hcs).
  pose proof (call_component_outcome n c s) as Hout.
  set (i0 := mkInvocation n
               (_prepare_component_inputs
                  (set_status ComponentStatus.RUNNING c) (run_outputs s))
               (call_component component_execute n c s).1) in *.
  assert (∀ before i after,
            [i0] = before ++ i :: after ->
            ∃ c0, dict_get (inv_name i) (components w) = Some c0
                  ∧ made_on component_execute c0 i
                  ∧ inv_inputs i
                    = _prepare_component_inputs c0
                        (output_table (run_outputs s) before)) as Hone.
  { intros before i after Heq. destruct before as [|? before].
    - injection Heq as <- _. by exists c.
    - by destruct before. }
  destruct (call_component component_execute n c s) as [[r|e] s1] eqn:Hcall;
    simpl in Hlog, Houts, Hcs, Hout.
  - destruct (decide (result_status r = ComponentStatus.FAILED)) as [Hr|Hr].
    + by exists [i0].
    + destruct (IH (ran ++ [n]) (store_output n r (store_result n r s1)))
        as (new & Hlog' & Hnew).
      * by rewrite <- app_assoc.
      * simpl. intros m [Hm Hmn]%not_elem_of_app. rewrite Hcs, dict_get_set.
        rewrite decide_False by (intros ->; apply Hmn; by left).
        by apply Hsame.
      * cbn [store_output store_result run_log run_outputs] in Hlog', Hnew.
        exists (i0 :: new). split.
        { by rewrite Hlog', Hlog, <- app_assoc. }
        intros [|i1 before] i after; cbn [app].
        { intros [= <- _]. by apply (Hone [] i0 []). }
        intros [= <- Hsplit].
        destruct (Hnew before i after Hsplit) as (c0 & Hc0 & Hmade & Hin).
        exists c0. split_and!; [done..|].
        by rewrite Hin, Houts, (output_table_store _ i0 r).
  - by exists [i0].
Qed.

(** The loop stops only at the end of the order, after an unsuccessful
    call, or at a name that is not in the mapping. *)
Lemma run_loop_halts w names s :
  (inv_name <$> run_log s) ++ names = execution_order w ->
  (∀ m, dict_mem m (components (run_wf s)) = dict_mem m (components w)) ->
  halts w (run_log (loop_state (run_loop component_execute names s))).
Proof.
  revert s. induction names as [|n names IH]; intros s Horder Hmem;
    cbn [run_loop].
  { exists []. split; [done|]. by left. }
  destruct (dict_get n (components (run_wf s))) as [c|] eqn:Hc.
  2:{ exists (n :: names). split; [done|]. right. right. exists n.
      split; [done|]. rewrite <- Hmem. unfold dict_mem. by rewrite Hc. }
  destruct (call_component_spec n c s) as (Hlog & _ & _ & _ & _ & c' & Hcs).
  set (i0 := mkInvocation n
               (_prepare_component_inputs
                  (set_status ComponentStatus.RUNNING c) (run_outputs s))
               (call_component component_execute n c s).1) in *.
  assert (execution_order w
          = (inv_name <$> run_log s ++ [i0]) ++ names) as Horder'.
  { by rewrite fmap_app, <- app_assoc. }
  destruct (call_component component_execute n c s) as [[r|e] s1] eqn:Hcall;
    simpl in Hlog, Hcs.
  - destruct (decide (result_status r = ComponentStatus.FAILED)) as [Hr|Hr].
    + exists names. simpl. rewrite Hlog. split; [done|]. right. left.
      exists i0. by rewrite last_snoc.
    + apply IH; simpl.
      * by rewrite Hlog.
      * intros m. rewrite Hcs, <- Hmem. unfold dict_mem.
        rewrite dict_get_set. destruct (decide (m = n)); [|done].
        subst. by rewrite Hc.
  - exists names. simpl. rewrite Hlog. split; [done|]. right. left.
    exists i0. by rewrite last_snoc.
Qed.

End Run.

(** ** Runs *)

Section Engine.
Context {py : Python} {Data Config : Type}.
Context (component_execute :
           Component (Config := Config) -> gmap string Data
           -> Outcome (Data := Data) * Component (Config := Config)).
Implicit Types (s : run_state (Data := Data) (Config := Config)).
Implicit Types (w : Workflow (Config := Config)).
Implicit Types (c : Component (Config := Config)).


Lemma run_start_good init w : good (run_start (Data := Data) init w).
Proof.
  split; simpl; try done.
  - by setoid_rewrite elem_of_nil.
  - intros n. rewrite lookup_empty, elem_of_nil. split; [by intros [? ?]|done].
Qed.

Lemma good_not_failed s i r :
  good s -> i ∈ run_log s -> inv_outcome i = Returns r ->
  result_status r ≠ ComponentStatus.FAILED.
Proof.
  intros Hgood Hi Hr. destruct (good_outcomes _ Hgood i Hi) as (r' & Hr' & ?).
  congruence.
Qed.

Lemma good_not_raised s i e :
  good s -> i ∈ run_log s -> inv_outcome i ≠ Raises e.
Proof.
  intros Hgood Hi Hr. destruct (good_outcomes _ Hgood i Hi) as (r' & Hr' & ?).
  congruence.
Qed.

(** When the names run so far are a prefix of an order that puts [a]
    before [b], and [a] ran last, [b] has not run. *)
Lemma last_run_precedes (l pre : list string) a b :
  NoDup l -> (pre ++ [a]) `prefix_of` l -> precedes a b l -> b ∉ pre ++ [a].
Proof.
  intros Hnd [rest ->] (i & j & Hi & Hj & Hij) [j' Hj']%list_elem_of_lookup.
  assert (((pre ++ [a]) ++ rest) !! length pre = Some a) as Ha.
  { rewrite lookup_app_l by (rewrite length_app; simpl; lia).
    by rewrite lookup_app_r, Nat.sub_diag by lia. }
  assert (i = length pre) by eauto using NoDup_lookup.
  pose proof (lookup_lt_Some _ _ _ Hj') as Hlt.
  rewrite length_app in Hlt. simpl in Hlt.
  assert (j = j'); [|lia].
  eapply NoDup_lookup; [done..|].
  rewrite lookup_app_l; [done|]. rewrite length_app. simpl. lia.
Qed.

Lemma execute_log init w :
  exec_log (execute component_execute init w)
  = run_log
      (loop_state
         (run_loop component_execute (execution_order w) (run_start init w))).
Proof. apply finish_fields. Qed.

Lemma execute_results init w :
  component_results (exec_result (execute component_execute init w))
  = component_results
      (run_result
         (loop_state
            (run_loop component_execute (execution_order w)
               (run_start init w)))).
Proof. apply finish_fields. Qed.

Lemma execute_result init w :
  exec_result (execute component_execute init w)
  = run_result
      (finish
         (run_loop component_execute (execution_order w) (run_start init w))).
Proof. done. Qed.

Lemma run_start_table init w :
  run_outputs (run_start (Data := Data) init w) = default ∅ init.
Proof.
  simpl. destruct init as [m|]; simpl; [|done].
  destruct (bool_decide (size m = 0)) eqn:Hsize; simpl; [|done].
  apply bool_decide_eq_true, map_size_empty_iff in Hsize. by subst.
Qed.

Lemma execute_traced init w :
  NoDup (execution_order w) ->
  traced component_execute init w
    (exec_log (execute component_execute init w)).
Proof.
  intros Hnd. rewrite execute_log.
  destruct (run_loop_traced component_execute w (execution_order w) []
              (run_start init w) Hnd eq_refl) as (new & Hlog & Hnew);
    [done|].
  rewrite Hlog. intros before i after Hsplit.
  destruct (Hnew before i after Hsplit) as (c & Hc & Hmade & Hin).
  exists c. split_and!; [done..|]. by rewrite Hin, run_start_table.
Qed.

Lemma execute_halts init w :
  halts w (exec_log (execute component_execute init w)).
Proof. rewrite execute_log. by apply run_loop_halts. Qed.

Lemma execute_table init w :
  run_outputs
    (finish
       (run_loop component_execute (execution_order w) (run_start init w)))
  = output_table (default ∅ init)
      (exec_log (execute component_execute init w)).
Proof.
  rewrite execute_log.
  destruct (finish_fields
              (run_loop component_execute (execution_order w)
                 (run_start init w))) as (_ & -> & _).
  destruct (run_loop_table component_execute (execution_order w)
              (run_start init w)) as (new & -> & ->).
  by rewrite run_start_table.
Qed.

(** C7. The input mapping that [_prepare_component_inputs] builds binds
    exactly those of the component's dependency names that have an entry
    in the output table, each to that entry's value, and nothing else.
    And in a run every call of [execute] is passed that mapping: the call
    is made on the component the workflow holds under its name, its
    outcome is what [execute] gives on exactly this mapping, and the
    mapping is the one prepared from the output table as the earlier calls
    of the run have left it. The execution order is taken to hold no name
    twice, as it does in every workflow the structural operations produce
    ([reachable_order_nodup]): a component called a second time is the
    object its first call left behind. *)
Theorem prepare_component_inputs_spec :
  (∀ c (outs : gmap string Data) k,
     _prepare_component_inputs c outs !! k
     = if decide (k ∈ dependencies c) then outs !! k else None)
  ∧ (∀ init w before i after,
       NoDup (execution_order w) ->
       exec_log (execute component_execute init w) = before ++ i :: after ->
       ∃ c, dict_get (inv_name i) (components w) = Some c
            ∧ made_on component_execute c i
            ∧ ∀ k, inv_inputs i !! k
                   = if decide (k ∈ dependencies c)
                     then output_table (default ∅ init) before !! k
                     else None).
Proof.
  split; [apply prepare_lookup|].
  intros init w before i after Hnd Hlog.
  destruct (execute_traced init w Hnd before i after Hlog)
    as (c & Hc & Hmade & Hin).
  exists c. split_and!; [done..|]. intros k. by rewrite Hin, prepare_lookup.
Qed.

(** C4. When a component's [execute] raises during a run, [execute] of the
    workflow still returns: its result has status FAILED and the message
    of the exception is among its errors. *)
Theorem execute_catches_exceptions init w n inputs e :
  let x := execute component_execute init w in
  mkInvocation n inputs (Raises e) ∈ exec_log x ->
  wr_status (exec_result x) = WorkflowStatus.FAILED
  ∧ str e ∈ wr_errors (exec_result x).
Proof.
  intros x. subst x. rewrite execute_log, execute_result.
  pose proof (run_loop_post component_execute (execution_order w) []
                (run_start init w) (run_start_good init w) eq_refl) as Hpost.
  destruct (run_loop component_execute _ _) as [s'|e' s']; cbn [loop_state];
    intros Hin.
  - exfalso.
    destruct Hpost as [[Hgood _]|(s0 & i & r & Hgood & Hl & Hi & _)].
    + by eapply good_not_raised.
    + rewrite Hl in Hin.
      apply elem_of_app in Hin as [Hin|Hin%list_elem_of_singleton].
      * by eapply good_not_raised.
      * by subst i.
  - split; [done|]. simpl.
    destruct Hpost as (_ & _ & [Hgood|(s0 & i & Hgood & Hl & Hi)]).
    + exfalso. by eapply good_not_raised.
    + rewrite Hl in Hin.
      apply elem_of_app in Hin as [Hin|Hin%list_elem_of_singleton].
      * exfalso. by eapply good_not_raised.
      * subst i. simpl in Hi. injection Hi as ->.
        apply elem_of_app. right. by left.
Qed.

Lemma topological_reaches w a b :
  topological w -> tc (edge (components w)) a b ->
  precedes a b (execution_order w).
Proof.
  intros (Hnd & _ & Hedges) Hab. induction Hab; [by auto|].
  eapply precedes_trans; [done | by apply Hedges | done].
Qed.

(** X23. Fail-fast. When, during a run of a workflow whose execution order
    holds no name twice, the [execute] of [a] returns a FAILED result [r],
    that call is the last one of the run: the run's result is FAILED with
    exactly [a]'s errors, it holds [r] for [a], and no component that
    comes after [a] in the execution order is called or has a result.
    When the execution order is current (it lists every component once,
    dependencies first), these are in particular all the components that
    depend on [a], directly or through others. *)
Theorem execute_fail_fast init w a r :
  let x := execute component_execute init w in
  NoDup (execution_order w) ->
  returned a r (exec_log x) ->
  result_status r = ComponentStatus.FAILED ->
  wr_status (exec_result x) = WorkflowStatus.FAILED
  ∧ wr_errors (exec_result x) = errors r
  ∧ component_results (exec_result x) !! a = Some r
  ∧ (∃ before i ca,
       exec_log x = before ++ [i]
       ∧ inv_name i = a ∧ inv_outcome i = Returns r
       ∧ dict_get a (components w) = Some ca
       ∧ made_on component_execute ca i)
  ∧ (∀ b, precedes a b (execution_order w) ->
          ¬ invoked b (exec_log x)
          ∧ component_results (exec_result x) !! b = None)
  ∧ (topological w ->
     ∀ b, tc (edge (components w)) a b ->
          ¬ invoked b (exec_log x)
          ∧ component_results (exec_result x) !! b = None).
Proof.
  intros x Hnd [inputs Hin] Hfailed.
  assert ((∀ b, precedes a b (execution_order w) ->
                ¬ invoked b (exec_log x)
                ∧ component_results (exec_result x) !! b = None)
          -> topological w ->
          ∀ b, tc (edge (components w)) a b ->
               ¬ invoked b (exec_log x)
               ∧ component_results (exec_result x) !! b = None) as Hdeps.
  { intros Hafter Htop b Hab. by apply Hafter, topological_reaches. }
  pose proof (execute_traced init w Hnd) as Htraced.
  fold x in Htraced. revert Hin Hdeps Htraced. subst x. unfold invoked.
  rewrite execute_log, execute_results, execute_result.
  pose proof (run_loop_post component_execute (execution_order w) []
                (run_start init w) (run_start_good init w) eq_refl) as Hpost.
  destruct (run_loop component_execute _ _) as [s'|e' s']; cbn [loop_state];
    intros Hin Hdeps Htraced.
  - destruct Hpost as [[Hgood _]|
      (s0 & i & r' & Hgood & Hl & Hi & Hr' & Hpre & Hst & Hres & Herr & Hwf)].
    { exfalso. by eapply (good_not_failed s' _ r). }
    unfold finish. rewrite decide_False by (by rewrite Hwf).
    rewrite Hl in Hin.
    apply elem_of_app in Hin as [Hin|Hin%list_elem_of_singleton].
    { exfalso. by eapply (good_not_failed s0 _ r). }
    subst i. simpl in *. injection Hi as <-.
    rewrite Hl, fmap_app in Hpre. simpl in Hpre.
    assert (∀ b, precedes a b (execution_order w) ->
                 ¬ (∃ i, i ∈ run_log s' ∧ inv_name i = b)
                 ∧ component_results (run_result s') !! b = None) as Hafter.
    { intros b Hab.
      pose proof (last_run_precedes _ _ _ _ Hnd Hpre Hab) as Hb. split.
      - intros (i & Hi & <-). apply Hb. rewrite Hl in Hi.
        change [a] with (inv_name <$> [mkInvocation a inputs (Returns r)]).
        rewrite <- fmap_app. by apply list_elem_of_fmap_2.
      - rewrite Hres, lookup_insert_ne.
        + apply eq_None_not_Some. rewrite (good_results _ Hgood).
          intros ?. apply Hb, elem_of_app. by left.
        + intros ->. apply Hb, elem_of_app. right. by left. }
    split_and!; [done | done | by rewrite Hres, lookup_insert_eq | | done
                | by apply Hdeps].
    destruct (Htraced (run_log s0) (mkInvocation a inputs (Returns r)) [])
      as (ca & Hca & Hmade & _); [done|].
    by exists (run_log s0), (mkInvocation a inputs (Returns r)), ca.
  - exfalso.
    destruct Hpost as (_ & _ & [Hgood|(s0 & i & Hgood & Hl & Hi)]).
    + by eapply (good_not_failed s' _ r).
    + rewrite Hl in Hin.
      apply elem_of_app in Hin as [Hin|Hin%list_elem_of_singleton].
      * by eapply (good_not_failed s0 _ r).
      * by subst i.
Qed.

(** C10. A non-empty [initial_inputs] mapping is itself the output table
    of the run. The calls of the run are prepared from it, and after the
    call it is the table the logged calls give: the caller's entries, with
    the data of every call that returned a result other than FAILED
    stored under the component's name; entries under names that are not
    in the execution order are as the caller gave them. When
    [initial_inputs] is omitted or empty the caller's argument is as it
    was. The run goes through the execution order and stops only at its
    end, after an unsuccessful call or at a name that is not in the
    mapping, and, the execution order holding no name twice, every logged
    call is a call of [execute] on the component of its name, with the
    inputs prepared from the table at that moment. *)
Theorem execute_shares_initial_inputs init w :
  let x := execute component_execute init w in
  (∀ m, init = Some m -> m ≠ ∅ ->
     ∃ t, exec_initial_inputs x = Some t
          ∧ t = output_table m (exec_log x)
          ∧ (∀ n r,
               component_results (exec_result x) !! n = Some r ->
               result_status r ≠ ComponentStatus.FAILED ->
               t !! n = Some (data r))
          ∧ (∀ k, k ∉ execution_order w -> t !! k = m !! k))
  ∧ (init = None ∨ init = Some ∅ -> exec_initial_inputs x = init)
  ∧ halts w (exec_log x)
  ∧ (NoDup (execution_order w) ->
     traced component_execute init w (exec_log x)).
Proof.
  intros x. subst x. split_and!.
  - intros m -> Hm. pose proof (execute_table (Some m) w) as Htable.
    unfold execute. simpl.
    assert (bool_decide (size m = 0) = false) as Hsize.
    { apply bool_decide_eq_false. by rewrite map_size_empty_iff. }
    rewrite Hsize. simpl. eexists. split; [done|].
    split; [by rewrite Htable|].
    destruct (finish_fields
                (run_loop component_execute (execution_order w)
                   (run_start (Some m) w))) as (-> & -> & _).
    split.
    + apply run_loop_outputs_stored. intros n r. simpl.
      by rewrite lookup_empty.
    + intros k Hk. rewrite run_loop_outputs_frame by done. simpl.
      by rewrite Hsize.
  - intros [->| ->]; [done|]. unfold execute. simpl.
    by rewrite map_size_empty.
  - apply execute_halts.
  - apply execute_traced.
Qed.

End Engine.

(** ** A chain of three components *)

Section Chain.
Context {py : Python} {Data Config : Type}.
Context (component_execute :
           Component (Config := Config) -> gmap string Data
           -> Outcome (Data := Data) * Component (Config := Config)).
Implicit Types (s : run_state (Data := Data) (Config := Config)).
Implicit Types (w : Workflow (Config := Config)).








End Chain.

(** ** Validation *)

Section Validate.
Context {py : Python} {Config : Type}.
Context (validate_config :
           Component (Config := Config) -> bool * Component (Config := Config)).
Implicit Types (w : Workflow (Config := Config)).


Lemma check_configs_pure items errs :
  (∀ n c, (n, c) ∈ items -> (validate_config c).2 = c) ->
  (check_configs validate_config items errs).2 = items.
Proof.
  revert errs. induction items as [|[n c] items IH]; intros errs Hpure;
    simpl; [done|].
  rewrite (Hpure n c) by left. f_equal. apply IH.
  intros n' c' ?. apply (Hpure n'). by right.
Qed.

(** C9. When [validate_config] leaves every component of the graph as it
    found it, [validate] leaves the workflow as it found it (component
    mapping, every component's edge lists, execution order), and a second
    call returns the same list of problems as the first. *)
Theorem validate_idempotent w :
  (∀ n c, (n, c) ∈ components w -> (validate_config c).2 = c) ->
  let first := validate validate_config w in
  first.2 = w ∧ (validate validate_config first.2).1 = first.1.
Proof.
  intros Hpure first. subst first.
  assert ((validate validate_config w).2 = w) as Hsame.
  { unfold validate. simpl. rewrite check_configs_pure by done.
    by destruct w. }
  split; [done | by rewrite Hsame].
Qed.

End Validate.

(** ** The model on the workflows of the test suite *)

Section Instances.
#[local] Existing Instance CPython.

Example diamond_order :
  execution_order ex_diamond
  = ["component_A"; "component_B"; "component_C"; "component_D";
     "component_E"].
Proof. by vm_compute. Qed.

Example circular_dependency_detected :
  ∃ w', connect_components "component_D" "component_A" ex_diamond
        = Raised
            (ValueError
               "Circular dependency detected involving 'component_A'") w'.
Proof. eexists. by vm_compute. Qed.

Example failing_run :
  exec_result (execute mock_execute None ex_fail)
  = {| wr_status := WorkflowStatus.FAILED;
       component_results := {[ "A" := failed_result ]};
       wr_errors := ["boom"] |}.
Proof. by vm_compute. Qed.

Example chain_run :
  data <$> component_results
             (exec_result (execute adder_execute None ex_chain)) !! "C"
  = Some 111%Z.
Proof. by vm_compute. Qed.

(** ** Instances *)

Lemma unreferenced_Forall {Config} n
    (cs : dict (Component (Config := Config))) :
  Forall (fun item => (n ∉ dependencies item.2) ∧ (n ∉ outputs item.2))
    cs ->
  unreferenced n cs.
Proof.
  intros Hall m c Hc%dict_get_elem.
  by apply (proj1 (Forall_forall _ _) Hall (m, c)).
Qed.

Lemma ex_ab_built : built ex_ab.
Proof.
  apply (built_connect
           (script [AddStep "A" (MockAdd 1); AddStep "B" (MockAdd 2)])
           _ "A" "B"); [|by vm_compute].
  apply (built_add (script [AddStep "A" (MockAdd 1)]) _ "B" (MockAdd 2));
    [|by vm_compute].
  apply (built_add new_workflow _ "A" (MockAdd 1));
    [apply built_new | by vm_compute].
Defined.

Lemma execution_order_topological_witness :
  execution_order ex_ab ≡ₚ dict_keys (components ex_ab)
  ∧ ∀ a b, dependency_of (components ex_ab) a b ->
           precedes a b (execution_order ex_ab).
Proof. apply (execution_order_topological ex_ab), ex_ab_built. Defined.

(** C2 fails on the code. [A -> B] is connected, so the edge [B -> A]
    would close a cycle. [connect_components "B" "A"] raises the circular
    dependency error, but only after [add_dependency] and [add_output]
    have recorded the edge: [A] now lists [B] as a dependency and [B]
    lists [A] as an output, while the execution order is the old one.
    The graph is left with a cycle, so that every later structural call
    raises after it has changed the mapping: adding a new component [C]
    raises and yet inserts [C], which no execution order ever names, and
    a run then completes without calling [C]. *)
Theorem connect_cycle_leaves_edge :
  connect_components "B" "A" ex_ab
  = Raised (ValueError (circular_msg "A")) ex_ab_refused
  ∧ execution_order ex_ab_refused = execution_order ex_ab
  ∧ dependencies <$> dict_get "A" (components ex_ab) = Some []
  ∧ dependencies <$> dict_get "A" (components ex_ab_refused) = Some ["B"]
  ∧ outputs <$> dict_get "B" (components ex_ab) = Some []
  ∧ outputs <$> dict_get "B" (components ex_ab_refused) = Some ["A"]
  ∧ add_component (new_component "C" (MockAdd 3)) ex_ab_refused
    = Raised (ValueError (circular_msg "A")) ex_refused_added
  ∧ dict_mem "C" (components ex_refused_added) = true
  ∧ execution_order ex_refused_added = ["A"; "B"]
  ∧ wr_status (exec_result (execute mock_execute None ex_refused_added))
    = WorkflowStatus.COMPLETED
  ∧ component_results
      (exec_result (execute mock_execute None ex_refused_added)) !! "C"
    = None.
Proof. split_and!; by vm_compute. Qed.



Lemma ex_ab_refused_evolved : evolved ex_ab_refused.
Proof.
  apply (evolved_connect ex_ab "B" "A").
  apply (evolved_connect
           (script [AddStep "A" (MockAdd 1); AddStep "B" (MockAdd 2)])
           "A" "B").
  apply (evolved_add (script [AddStep "A" (MockAdd 1)]) "B" (MockAdd 2)).
  - apply (evolved_add new_workflow "A" (MockAdd 1)); [apply evolved_new|].
    apply unreferenced_Forall. apply (bool_decide_unpack _). by vm_compute.
  - apply unreferenced_Forall. apply (bool_decide_unpack _). by vm_compute.
Defined.

Lemma evolved_mirrored_witness : mirrored (components ex_ab_refused).
Proof. apply (evolved_mirrored ex_ab_refused), ex_ab_refused_evolved. Defined.

(** C6, as stated, fails: [A] was removed while [B] listed it, and the
    component added under that name again has no outputs. *)
Lemma mirrored_counterexample :
  add_component (new_component "A" (MockAdd 7)) ex_removed = Done ex_readded
  ∧ ¬ mirrored (components ex_readded).
Proof.
  split; [by vm_compute|]. intros Hmi.
  assert ("A" ∈ dependencies (mkComponent "B" (MockAdd 2)
                                 ComponentStatus.PENDING ["A"] [])) as Ha
    by left.
  eapply (Hmi "A" "B") in Ha; [|by vm_compute..].
  vm_compute in Ha. by apply elem_of_nil in Ha.
Qed.

(** C3 fails on the code, through the defect shown for C2. After the
    refused [connect_components "B" "A"], [A] lists [B] as a dependency,
    but the execution order is still [A], [B]. In a run [B]'s [execute]
    returns a FAILED result and the run fails; yet [A], which depends on
    [B], has been called before and has its result in the run's results. *)
Theorem stale_order_runs_dependent :
  let x := execute mock_execute None ex_fail_refused in
  dependency_of (components ex_fail_refused) "B" "A"
  ∧ dict_mem "B" (components ex_fail_refused) = true
  ∧ execution_order ex_fail_refused = ["A"; "B"]
  ∧ exec_log x
    = [mkInvocation "A" ∅
         (Returns {| result_status := ComponentStatus.COMPLETED;
                     data := 1%Z; metadata := ∅; errors := [] |});
       mkInvocation "B" {[ "A" := 1%Z ]} (Returns failed_result)]
  ∧ wr_status (exec_result x) = WorkflowStatus.FAILED
  ∧ component_results (exec_result x) !! "B" = Some failed_result
  ∧ is_Some (component_results (exec_result x) !! "A")
  ∧ invoked "A" (exec_log x).
Proof.
  intros x.
  assert (exec_log x
          = [mkInvocation "A" ∅
               (Returns {| result_status := ComponentStatus.COMPLETED;
                           data := 1%Z; metadata := ∅; errors := [] |});
             mkInvocation "B" {[ "A" := 1%Z ]} (Returns failed_result)])
    as Hlog by by vm_compute.
  split_and!; [|by vm_compute|by vm_compute|done|by vm_compute|by vm_compute
              | |].
  - eexists. split; [by vm_compute | by left].
  - eexists. by vm_compute.
  - eexists. rewrite Hlog. split; [by left|done].
Qed.

Lemma execute_fail_fast_witness :
  let x := execute mock_execute None ex_fail in
  wr_status (exec_result x) = WorkflowStatus.FAILED
  ∧ wr_errors (exec_result x) = errors failed_result
  ∧ component_results (exec_result x) !! "A" = Some failed_result
  ∧ (∃ before i ca,
       exec_log x = before ++ [i]
       ∧ inv_name i = "A" ∧ inv_outcome i = Returns failed_result
       ∧ dict_get "A" (components ex_fail) = Some ca
       ∧ made_on mock_execute ca i)
  ∧ (∀ b, precedes "A" b (execution_order ex_fail) ->
          ¬ invoked b (exec_log x)
          ∧ component_results (exec_result x) !! b = None)
  ∧ (topological ex_fail ->
     ∀ b, tc (edge (components ex_fail)) "A" b ->
          ¬ invoked b (exec_log x)
          ∧ component_results (exec_result x) !! b = None).
Proof.
  apply (execute_fail_fast mock_execute None ex_fail "A" failed_result).
  - apply (bool_decide_unpack _). by vm_compute.
  - exists ∅. vm_compute. left.
  - done.
Defined.

Lemma execute_catches_exceptions_witness :
  wr_status (exec_result (execute mock_execute None ex_raise))
    = WorkflowStatus.FAILED
  ∧ str (RuntimeError "oops")
    ∈ wr_errors (exec_result (execute mock_execute None ex_raise)).
Proof.
  apply (execute_catches_exceptions mock_execute None ex_raise "B"
           {[ "A" := 1%Z ]} (RuntimeError "oops")).
  vm_compute. right. left.
Defined.



Example chain_data :
  data <$> component_results
             (exec_result (execute adder_execute None ex_chain)) !! "B"
  = Some 11%Z.
Proof. by vm_compute. Qed.

Lemma prepare_component_inputs_spec_witness :
  let iA := mkInvocation "A" (∅ : gmap string Z)
              (Returns {| result_status := ComponentStatus.COMPLETED;
                          data := 1%Z; metadata := ∅; errors := [] |}) in
  let iB := mkInvocation "B" ({[ "A" := 1%Z ]} : gmap string Z)
              (Returns {| result_status := ComponentStatus.COMPLETED;
                          data := 11%Z; metadata := ∅; errors := [] |}) in
  let iC := mkInvocation "C" ({[ "B" := 11%Z ]} : gmap string Z)
              (Returns {| result_status := ComponentStatus.COMPLETED;
                          data := 111%Z; metadata := ∅; errors := [] |}) in
  exec_log (execute adder_execute None ex_chain) = [iA; iB; iC]
  ∧ ∃ c, dict_get "B" (components ex_chain) = Some c
         ∧ made_on adder_execute c iB
         ∧ ∀ k, inv_inputs iB !! k
                = if decide (k ∈ dependencies c)
                  then output_table (default ∅ None) [iA] !! k
                  else None.
Proof.
  intros iA iB iC.
  assert (exec_log (execute adder_execute None ex_chain) = [iA; iB; iC])
    as Hlog by by vm_compute.
  split; [done|].
  apply (proj2 (prepare_component_inputs_spec adder_execute)
           None ex_chain [iA] iB [iC]); [|done].
  apply (bool_decide_unpack _). by vm_compute.
Defined.

Lemma validate_idempotent_witness :
  (validate mock_validate_config ex_removed).2 = ex_removed
  ∧ (validate mock_validate_config
       (validate mock_validate_config ex_removed).2).1
    = (validate mock_validate_config ex_removed).1.
Proof.
  apply (validate_idempotent mock_validate_config ex_removed). done.
Defined.

Example validate_reports_missing_dependency :
  (validate mock_validate_config ex_removed).1
  = ["Component 'B' depends on missing component 'A'"].
Proof. by vm_compute. Qed.

Lemma execute_shares_initial_inputs_witness :
  let m : gmap string Z := {[ "seed" := 5%Z ]} in
  let x := execute adder_execute (Some m) ex_chain in
  (∃ t, exec_initial_inputs x = Some t
        ∧ t = output_table m (exec_log x)
        ∧ t = {[ "seed" := 5%Z; "A" := 1%Z; "B" := 11%Z; "C" := 111%Z ]})
  ∧ halts ex_chain (exec_log x)
  ∧ traced adder_execute (Some m) ex_chain (exec_log x).
Proof.
  intros m x.
  destruct (execute_shares_initial_inputs adder_execute (Some m) ex_chain)
    as (Hshared & _ & Hhalts & Htraced).
  destruct (Hshared m eq_refl) as (t & Ht & Htable & _).
  { apply map_non_empty_singleton. }
  split_and!; [|done|].
  - exists t. split_and!; [done..|]. rewrite Htable. by vm_compute.
  - apply Htraced. apply (bool_decide_unpack _). by vm_compute.
Defined.

End Instances.

(** ** What the structural operations do to a graph without cycles *)

Section Outcomes.
Context {py : Python} {Config : Type}.
Implicit Types (cs : dict (Component (Config := Config))).
Implicit Types (c : Component (Config := Config)).
Implicit Types (w : Workflow (Config := Config)).

Lemma dict_set_absent {V} k (v : V) (d : dict V) :
  dict_mem k d = false -> dict_set k v d = d ++ [(k, v)].
Proof.
  unfold dict_mem. induction d as [|[k0 v0] d IH]; simpl; [done|].
  destruct (decide (k = k0)); [done|]. intros ?. f_equal. auto.
Qed.

Lemma dict_set_same {V} k (v : V) (d : dict V) :
  dict_get k d = Some v -> dict_set k v d = d.
Proof.
  induction d as [|[k0 v0] d IH]; simpl; [done|].
  destruct (decide (k = k0)) as [->|]; [by intros [= ->]|].
  intros ?. f_equal. auto.
Qed.





Lemma update_idempotent w w' :
  _update_execution_order w = Done w' -> _update_execution_order w' = Done w'.
Proof.
  unfold _update_execution_order.
  destruct (visit_all _ _ _ _) as [st|] eqn:Hall; [|done].
  intros [= <-]. simpl. by rewrite Hall.
Qed.

Lemma connected_again source target cs :
  connected source target (connected source target cs)
  = connected source target cs.
Proof.
  set (cs' := connected source target cs).
  assert (dict_update target (add_dependency source) cs' = cs') as Hdeps.
  { unfold dict_update. destruct (dict_get target cs') as [c'|] eqn:Hc'; [|done].
    apply dict_set_same. rewrite Hc'. f_equal.
    unfold add_dependency. rewrite decide_True; [done|].
    destruct (connected_get _ _ _ _ _ Hc') as (c & _ & Hd & _).
    apply Hd. by right. }
  unfold connected at 1. rewrite Hdeps.
  unfold dict_update. destruct (dict_get source cs') as [c'|] eqn:Hc'; [|done].
  apply dict_set_same. rewrite Hc'. f_equal.
  unfold add_output. rewrite decide_True; [done|].
  destruct (connected_get _ _ _ _ _ Hc') as (c & _ & _ & Ho).
  apply Ho. by right.
Qed.

(** X3. Connecting an edge a second time changes nothing: when
    [connect_components source target] has returned, calling it again on
    the result returns that same workflow. *)
Theorem connect_components_idempotent source target w w' :
  connect_components source target w = Done w' ->
  connect_components source target w' = Done w'.
Proof.
  intros Hconn.
  destruct (dict_mem source (components w)) eqn:Hs;
    [|by unfold connect_components in Hconn; rewrite Hs in Hconn].
  destruct (dict_mem target (components w)) eqn:Ht;
    [|by unfold connect_components in Hconn; rewrite Hs, Ht in Hconn].
  rewrite connect_components_present in Hconn by done.
  pose proof (update_idempotent _ _ Hconn) as Hidem.
  apply update_done in Hconn as (Hcs & _). simpl in Hcs.
  rewrite connect_components_present by (by rewrite Hcs, connected_mem).
  rewrite Hcs, connected_again, <- Hcs.
  by destruct w'.
Qed.




Lemma deleted_edge n cs a b :
  NoDup (dict_keys cs) -> edge (dict_del n cs) a b -> edge cs a b.
Proof.
  intros Hnd [(c & Hc & Ha) Hmem].
  assert (∀ k, is_Some (dict_get k (dict_del n cs)) -> k ≠ n) as Hne.
  { intros k [? Hk] ->. by rewrite dict_get_del_eq in Hk. }
  rewrite dict_get_del_ne in Hc by (apply Hne; eauto).
  apply dict_mem_true in Hmem as Hmem'.
  apply dict_mem_true in Hmem. rewrite dict_get_del_ne in Hmem by auto.
  split; [by exists c | by apply dict_mem_true].
Qed.

Lemma dict_del_length {V} k (d : dict V) :
  length (dict_del k d) ≤ length d.
Proof.
  induction d as [|[k0 v0] d IH]; simpl; [done|].
  destruct (decide (k = k0)); simpl; lia.
Qed.

(** X5. Removing a component of a graph without cycles, when the
    interpreter allows more frames than there are components, does not
    raise: the result has no cycle either, and its order lists the
    remaining components once, dependencies first. *)
Theorem remove_component_returns n w :
  NoDup (dict_keys (components w)) ->
  ¬ has_cycle (components w) ->
  length (components w) < recursion_limit ->
  dict_mem n (components w) = true ->
  ∃ w', remove_component n w = Done w'
        ∧ components w' = dict_del n (components w)
        ∧ topological w' ∧ ¬ has_cycle (components w').
Proof.
  intros Hnd Hacyclic Hlimit Hn. unfold remove_component. rewrite Hn.
  set (w2 := set_components _ w).
  destruct (update_acyclic_done w2) as [w' Hupd].
  - simpl. pose proof (dict_del_length n (components w)). lia.
  - simpl. intros [x Hx]. apply Hacyclic. exists x.
    apply (tc_congruence id (edge (components w))) in Hx; [done|].
    intros a b. by apply deleted_edge.
  - exists w'. split; [done|].
    pose proof (update_done_acyclic _ _ Hupd) as Hno.
    pose proof (update_done_topological _ _ Hupd) as Htop.
    apply update_done in Hupd as (-> & _). done.
Qed.

End Outcomes.

(** ** Shape of the graphs the operations produce *)

Section Shape.
Context {py : Python} {Config : Type}.
Implicit Types (cs : dict (Component (Config := Config))).
Implicit Types (c : Component (Config := Config)).
Implicit Types (w : Workflow (Config := Config)).

Lemma add_dependency_shape s c :
  name (add_dependency s c) = name c
  ∧ config (add_dependency s c) = config c
  ∧ status (add_dependency s c) = status c
  ∧ (NoDup (dependencies c) -> NoDup (dependencies (add_dependency s c))).
Proof.
  unfold add_dependency. destruct (decide (s ∈ dependencies c)); simpl;
    split_and!; try done.
  intros Hnd. apply NoDup_app. split_and!; [done | | apply NoDup_singleton].
  intros x Hx Hx'%list_elem_of_singleton. by subst.
Qed.

Lemma add_output_shape t c :
  name (add_output t c) = name c
  ∧ config (add_output t c) = config c
  ∧ status (add_output t c) = status c
  ∧ (NoDup (outputs c) -> NoDup (outputs (add_output t c))).
Proof.
  unfold add_output. destruct (decide (t ∈ outputs c)); simpl;
    split_and!; try done.
  intros Hnd. apply NoDup_app. split_and!; [done | | apply NoDup_singleton].
  intros x Hx Hx'%list_elem_of_singleton. by subst.
Qed.

(** What is kept by both list updates is kept by [connected]. *)
Lemma connected_keeps (P : Component (Config := Config) -> Prop)
    source target cs k c' :
  (∀ c, P c -> P (add_dependency source c)) ->
  (∀ c, P c -> P (add_output target c)) ->
  (∀ c, dict_get k cs = Some c -> P c) ->
  dict_get k (connected source target cs) = Some c' -> P c'.
Proof.
  intros Hdep Hout Hold. unfold connected. rewrite !dict_get_update.
  destruct (dict_get k cs) as [c|] eqn:Hc;
    [|by destruct (decide (k = source)), (decide (k = target))].
  specialize (Hold c eq_refl).
  destruct (decide (k = source)), (decide (k = target)); simpl;
    intros [= <-]; auto.
Qed.

Lemma reachable_components w :
  reachable w ->
  NoDup (dict_keys (components w))
  ∧ ∀ n c, dict_get n (components w) = Some c ->
           name c = n ∧ NoDup (dependencies c) ∧ NoDup (outputs c).
Proof.
  induction 1 as [|w n cfg _ [Hnd IH]|w n _ [Hnd IH]
                  |w source target _ [Hnd IH]].
  - split; [constructor|done].
  - unfold add_component. simpl.
    destruct (dict_mem n (components w)) eqn:Hmem; [done|].
    rewrite update_components. simpl. split.
    + rewrite dict_keys_set_new by done. apply NoDup_app.
      split_and!; [done | | apply NoDup_singleton].
      intros x Hx Hx'%list_elem_of_singleton. subst x.
      apply dict_mem_keys in Hx. congruence.
    + intros n' c. rewrite dict_get_set.
      destruct (decide (n' = n)) as [->|]; [|by apply IH].
      intros [= <-]. simpl. split_and!; [done | constructor..].
  - unfold remove_component.
    destruct (dict_mem n (components w)) eqn:Hmem; [|done].
    rewrite update_components. simpl.
    split; [by apply dict_keys_del_nodup|]. intros n' c Hc.
    destruct (decide (n' = n)) as [->|].
    + by rewrite dict_get_del_eq in Hc.
    + rewrite dict_get_del_ne in Hc by done. by apply IH.
  - destruct (dict_mem source (components w)) eqn:Hs;
      [|by rewrite connect_components_absent by auto].
    destruct (dict_mem target (components w)) eqn:Ht;
      [|by rewrite connect_components_absent by auto].
    rewrite connect_components_present, update_components by done. simpl.
    split; [by rewrite connected_keys|]. intros n c.
    apply (connected_keeps
             (fun c => name c = n ∧ NoDup (dependencies c)
                       ∧ NoDup (outputs c)));
      [| |by apply IH].
    + intros c0 (? & ? & ?).
      destruct (add_dependency_shape source c0) as (-> & _ & _ & Hnd').
      unfold add_dependency. destruct (decide _); simpl; [done|].
      unfold add_dependency in Hnd'. rewrite decide_False in Hnd' by done.
      auto.
    + intros c0 (? & ? & ?).
      destruct (add_output_shape target c0) as (-> & _ & _ & Hnd').
      unfold add_output. destruct (decide _); simpl; [done|].
      unfold add_output in Hnd'. rewrite decide_False in Hnd' by done. auto.
Qed.

(** X6. In every graph produced by the structural operations from new
    components, whether the calls returned or raised, the names in the
    mapping are distinct, the execution order holds no name twice, every
    component is stored under its own name, and no dependencies or outputs
    list holds a name twice. *)
Theorem reachable_shape w :
  reachable w ->
  NoDup (dict_keys (components w))
  ∧ NoDup (execution_order w)
  ∧ ∀ n c, dict_get n (components w) = Some c ->
           name c = n ∧ NoDup (dependencies c) ∧ NoDup (outputs c).
Proof.
  intros Hw. destruct (reachable_components w Hw) as [Hnd Hshape].
  split_and!; [done | by apply reachable_order_nodup | done].
Qed.

(** X7. [get_component_graph] has the names of the component mapping, in
    the same order, and binds each to that component's dependency list. *)
Theorem get_component_graph_spec w :
  dict_keys (get_component_graph w) = dict_keys (components w)
  ∧ ∀ n, dict_get n (get_component_graph w)
         = dependencies <$> dict_get n (components w).
Proof.
  unfold get_component_graph, get_dependencies. split.
  - unfold dict_keys. rewrite <- list_fmap_compose. by apply list_fmap_ext.
  - intros n. induction (components w) as [|[k c] cs IH]; simpl; [done|].
    by destruct (decide (n = k)).
Qed.

End Shape.

(** ** What validation reports *)

Section Report.
Context {py : Python} {Config : Type}.
Context (validate_config :
           Component (Config := Config) -> bool * Component (Config := Config)).
Implicit Types (cs : dict (Component (Config := Config))).
Implicit Types (w : Workflow (Config := Config)).

Lemma check_dependencies_spec cs n c errs :
  check_dependencies cs n c errs
  = errs ++ (missing_dependency_msg n
               <$> filter (fun d => dict_mem d cs = false) (dependencies c)).
Proof.
  unfold check_dependencies, get_dependencies. revert errs.
  induction (dependencies c) as [|d deps IH]; intros errs; simpl.
  { by rewrite app_nil_r. }
  rewrite IH, filter_cons. destruct (dict_mem d cs) eqn:Hd.
  - by rewrite decide_False by done.
  - rewrite decide_True by done. simpl. by rewrite <- app_assoc.
Qed.

Lemma check_all_dependencies_spec cs items errs :
  foldl (fun errs item => check_dependencies cs item.1 item.2 errs) errs items
  = errs ++ missing_dependencies cs items.
Proof.
  revert errs. induction items as [|[n c] items IH]; intros errs; simpl.
  { by rewrite app_nil_r. }
  by rewrite IH, check_dependencies_spec, <- app_assoc.
Qed.

Lemma check_configs_spec items errs :
  (check_configs validate_config items errs).1
  = errs ++ invalid_configs validate_config items.
Proof.
  revert errs. induction items as [|[n c] items IH]; intros errs; simpl.
  { by rewrite app_nil_r. }
  rewrite IH. destruct (validate_config c).1; simpl; [done|].
  by rewrite <- app_assoc.
Qed.

Lemma validate_report w :
  (validate validate_config w).1
  = missing_dependencies (components w) (components w)
    ++ invalid_configs validate_config (components w).
Proof.
  unfold validate. simpl.
  rewrite check_configs_spec. f_equal.
  apply (check_all_dependencies_spec _ _ []).
Qed.

Lemma missing_dependencies_elem cs items n c d :
  (n, c) ∈ items -> d ∈ dependencies c -> dict_mem d cs = false ->
  missing_dependency_msg n d ∈ missing_dependencies cs items.
Proof.
  intros Hin Hd Hmem. unfold missing_dependencies.
  apply list_elem_of_bind. exists (n, c). split; [|done]. simpl.
  apply list_elem_of_fmap_2, list_elem_of_filter. done.
Qed.

Lemma missing_dependencies_nil cs items :
  missing_dependencies cs items = []
  ↔ ∀ n c d, (n, c) ∈ items -> d ∈ dependencies c -> dict_mem d cs = true.
Proof.
  split.
  - intros Hnil n c d Hin Hd.
    destruct (dict_mem d cs) eqn:Hmem; [done|].
    pose proof (missing_dependencies_elem cs items n c d Hin Hd Hmem) as Helem.
    rewrite Hnil in Helem. by apply elem_of_nil in Helem.
  - intros Hall. apply elem_of_nil_inv. intros msg.
    unfold missing_dependencies. rewrite list_elem_of_bind.
    intros ([n c] & Hmsg & Hin). simpl in Hmsg.
    apply list_elem_of_fmap in Hmsg as (d & _ & Hd).
    apply list_elem_of_filter in Hd as [Hmem Hd].
    by rewrite (Hall n c d) in Hmem.
Qed.

Lemma invalid_configs_nil items :
  invalid_configs validate_config items = []
  ↔ ∀ n c, (n, c) ∈ items -> (validate_config c).1 = true.
Proof.
  unfold invalid_configs. induction items as [|[n c] items IH]; simpl.
  { split; [|done]. intros _ n c []%elem_of_nil. }
  split.
  - intros Hnil n' c' [[= -> ->]|Hin]%elem_of_cons.
    + by destruct (validate_config c).1.
    + destruct (validate_config c).1; [|done]. by apply (proj1 IH Hnil n').
  - intros Hall. rewrite (Hall n c) by left. apply IH.
    intros n' c' ?. apply (Hall n'). by right.
Qed.

(** X8. [validate] returns no problem exactly when every name in every
    component's dependency list is a component of the graph and every
    component's [validate_config] answers true. *)
Theorem validate_clean_iff w :
  (validate validate_config w).1 = []
  ↔ (∀ n c d, (n, c) ∈ components w -> d ∈ dependencies c ->
              dict_mem d (components w) = true)
    ∧ (∀ n c, (n, c) ∈ components w -> (validate_config c).1 = true).
Proof.
  rewrite validate_report, <- missing_dependencies_nil, <- invalid_configs_nil.
  apply app_nil.
Qed.

(** X9. After [remove_component n], [validate] reports, for every remaining
    component that lists [n] as a dependency, that it depends on the
    missing component [n]. *)
Theorem validate_after_remove n b cb w :
  NoDup (dict_keys (components w)) ->
  dict_mem n (components w) = true ->
  dict_get b (components w) = Some cb -> b ≠ n -> n ∈ dependencies cb ->
  missing_dependency_msg b n
  ∈ (validate validate_config (workflow_of (remove_component n w))).1.
Proof.
  intros Hnd Hn Hb Hne Hdep. rewrite validate_report.
  unfold remove_component. rewrite Hn, update_components. simpl.
  apply elem_of_app. left.
  apply (missing_dependencies_elem _ _ b cb n); [|done|].
  - apply dict_get_elem. by rewrite dict_get_del_ne.
  - apply dict_mem_false. by apply dict_get_del_eq.
Qed.

End Report.

(** ** What a run does and leaves alone *)

Section Runs.
Context {py : Python} {Data Config : Type}.
Context (component_execute :
           Component (Config := Config) -> gmap string Data
           -> Outcome (Data := Data) * Component (Config := Config)).
Implicit Types (s : run_state (Data := Data) (Config := Config)).
Implicit Types (w : Workflow (Config := Config)).
Implicit Types (c : Component (Config := Config)).

(** The loop only adds calls to the log; it keeps the execution order and
    the names of the mapping, touches no component but the ones it calls,
    and calls only components of the mapping. *)
Lemma run_loop_frame names s :
  let s' := loop_state (run_loop component_execute names s) in
  ∃ new,
    run_log s' = run_log s ++ new
    ∧ execution_order (run_wf s') = execution_order (run_wf s)
    ∧ dict_keys (components (run_wf s')) = dict_keys (components (run_wf s))
    ∧ (∀ m, m ∉ inv_name <$> new ->
            dict_get m (components (run_wf s'))
            = dict_get m (components (run_wf s)))
    ∧ (∀ m, m ∈ inv_name <$> new ->
            dict_mem m (components (run_wf s)) = true).
Proof.
  revert s. induction names as [|n names IH]; intros s; cbn [run_loop].
  { exists []. rewrite app_nil_r. split_and!; try done.
    by intros m []%elem_of_nil. }
  destruct (dict_get n (components (run_wf s))) as [c|] eqn:Hc.
  2:{ exists []. rewrite app_nil_r. split_and!; try done.
      by intros m []%elem_of_nil. }
  assert (dict_mem n (components (run_wf s)) = true) as Hmem.
  { apply dict_mem_true. eauto. }
  destruct (call_component_spec component_execute n c s)
    as (Hlog & _ & _ & _ & Hord & c' & Hcs).
  assert (∀ m, m ≠ n ->
               dict_get m (components
                             (run_wf (call_component component_execute n c s).2))
               = dict_get m (components (run_wf s))) as Hother.
  { intros m Hm. rewrite Hcs, dict_get_set. by rewrite decide_False. }
  assert (dict_keys (components
                       (run_wf (call_component component_execute n c s).2))
          = dict_keys (components (run_wf s))) as Hkeys.
  { rewrite Hcs. by apply dict_keys_set_mem. }
  destruct (call_component component_execute n c s) as [[r|e] s1] eqn:Hcall;
    simpl in Hlog, Hord, Hother, Hkeys.
  - destruct (decide (result_status r = ComponentStatus.FAILED)).
    + eexists [_]. simpl. split_and!; try done.
      * intros m Hm. apply Hother. intros ->. apply Hm. by left.
      * by intros m ->%list_elem_of_singleton.
    + destruct (IH (store_output n r (store_result n r s1)))
        as (new & Hlog' & Hord' & Hkeys' & Hsame & Hcalled).
      simpl in Hlog', Hord', Hkeys', Hsame, Hcalled.
      eexists (_ :: new). split_and!.
      * rewrite Hlog', Hlog, <- app_assoc. done.
      * congruence.
      * congruence.
      * intros m Hm. apply not_elem_of_cons in Hm as [Hne Hm].
        rewrite Hsame by done. by apply Hother.
      * intros m [->|Hm]%elem_of_cons; [done|].
        specialize (Hcalled m Hm). apply dict_mem_keys.
        rewrite <- Hkeys. by apply dict_mem_keys.
  - eexists [_]. simpl. split_and!; try done.
    + intros m Hm. apply Hother. intros ->. apply Hm. by left.
    + by intros m ->%list_elem_of_singleton.
Qed.

Lemma finish_workflow (r : loop_result (Data := Data) (Config := Config)) :
  components (run_wf (finish r)) = components (run_wf (loop_state r))
  ∧ execution_order (run_wf (finish r))
    = execution_order (run_wf (loop_state r)).
Proof. destruct r; simpl; [by destruct (decide _)|done]. Qed.

(** X10. A run changes neither the execution order nor the names of the
    component mapping; a component that was not called is left as it was,
    and only components of the mapping are called. *)
Theorem execute_frame init w :
  let x := execute component_execute init w in
  execution_order (exec_workflow x) = execution_order w
  ∧ dict_keys (components (exec_workflow x)) = dict_keys (components w)
  ∧ (∀ n, ¬ invoked n (exec_log x) ->
          dict_get n (components (exec_workflow x))
          = dict_get n (components w))
  ∧ (∀ n, invoked n (exec_log x) -> dict_mem n (components w) = true).
Proof.
  intros x. subst x. unfold invoked. rewrite execute_log.
  unfold execute. cbn [exec_workflow].
  destruct (finish_workflow
              (run_loop component_execute (execution_order w)
                 (run_start init w))) as [-> ->].
  destruct (run_loop_frame (execution_order w) (run_start init w))
    as (new & Hlog & Hord & Hkeys & Hsame & Hcalled).
  simpl in Hlog, Hord, Hkeys, Hsame, Hcalled. rewrite Hlog.
  split_and!; [done | done | |].
  - intros n Hn. apply Hsame. intros (i & -> & Hi)%list_elem_of_fmap.
    apply Hn. by exists i.
  - intros n (i & Hi & <-). apply Hcalled. by apply list_elem_of_fmap_2.
Qed.

(** X11. The components are called in the execution order: the names of
    the calls of a run, in the order they were made, are a prefix of the
    execution order. When the order holds no name twice, no component is
    called twice. *)
Theorem execute_calls_in_order init w :
  let x := execute component_execute init w in
  (inv_name <$> exec_log x) `prefix_of` execution_order w
  ∧ (NoDup (execution_order w) -> NoDup (inv_name <$> exec_log x)).
Proof.
  intros x. subst x. rewrite execute_log.
  assert ((inv_name <$>
             run_log (loop_state (run_loop component_execute
                                    (execution_order w) (run_start init w))))
          `prefix_of` execution_order w) as Hpre.
  { pose proof (run_loop_post component_execute (execution_order w) []
                  (run_start init w) (run_start_good init w) eq_refl)
      as Hpost.
    destruct (run_loop _ _) as [s'|e' s']; cbn [loop_state].
    - destruct Hpost as [[_ ->]|(s0 & i & r & _ & _ & _ & _ & Hpre & _)];
        done.
    - by destruct Hpost as (Hpre & _). }
  split; [done|]. intros Hnd. destruct Hpre as [rest Hrest].
  rewrite Hrest in Hnd. by apply NoDup_app in Hnd as (? & _).
Qed.

(** X12. A run ends COMPLETED or FAILED, and the workflow's own status is
    the status of the result. When it is COMPLETED, every component of the
    execution order was called, in that order, each returned a result
    other than FAILED, the result holds an entry for exactly the names of
    the order, and there are no errors. *)
Theorem execute_status init w :
  let x := execute component_execute init w in
  wf_status (exec_workflow x) = wr_status (exec_result x)
  ∧ (wr_status (exec_result x) = WorkflowStatus.COMPLETED
     ∨ wr_status (exec_result x) = WorkflowStatus.FAILED)
  ∧ (wr_status (exec_result x) = WorkflowStatus.COMPLETED ->
     inv_name <$> exec_log x = execution_order w
     ∧ (∀ i, i ∈ exec_log x ->
             ∃ r, inv_outcome i = Returns r
                  ∧ result_status r ≠ ComponentStatus.FAILED)
     ∧ (∀ n, is_Some (component_results (exec_result x) !! n)
             ↔ n ∈ execution_order w)
     ∧ wr_errors (exec_result x) = []).
Proof.
  intros x. subst x. unfold execute.
  cbn [exec_workflow exec_result exec_log].
  pose proof (run_loop_post component_execute (execution_order w) []
                (run_start init w) (run_start_good init w) eq_refl) as Hpost.
  destruct (run_loop _ _) as [s'|e' s'].
  - destruct Hpost as [[Hgood Hnames]|
      (s0 & i & r & _ & _ & _ & _ & _ & Hst & _ & _ & Hwf)].
    + unfold finish. rewrite decide_True by apply (good_wf_status _ Hgood).
      simpl. split_and!; [done | by left |]. intros _.
      split_and!; [done | apply (good_outcomes _ Hgood) | |
                   apply (good_errors _ Hgood)].
      intros n. by rewrite (good_results _ Hgood), Hnames.
    + unfold finish. rewrite decide_False by (by rewrite Hwf).
      rewrite Hst, Hwf. split_and!; [done | by right | done].
  - simpl. split_and!; [done | by right | done].
Qed.

Lemma run_loop_succeeds names s :
  (∀ self inputs, ∃ r, (component_execute self inputs).1 = Returns r
                       ∧ result_status r ≠ ComponentStatus.FAILED) ->
  (∀ n, n ∈ names -> dict_mem n (components (run_wf s)) = true) ->
  ∃ s', run_loop component_execute names s = Normal s'
        ∧ wf_status (run_wf s') = wf_status (run_wf s).
Proof.
  intros Hexec. revert s.
  induction names as [|n names IH]; intros s Hmem; cbn [run_loop].
  { by exists s. }
  destruct (dict_get n (components (run_wf s))) as [c|] eqn:Hc.
  2:{ specialize (Hmem n (list_elem_of_here _ _)).
      apply dict_mem_true in Hmem as [? ?]. congruence. }
  destruct (call_component_spec component_execute n c s)
    as (_ & _ & _ & Hwf & _ & c' & Hcs).
  unfold call_component in *.
  destruct (Hexec (set_status ComponentStatus.RUNNING c)
              (_prepare_component_inputs
                 (set_status ComponentStatus.RUNNING c) (run_outputs s)))
    as (r & Hr & Hok).
  simpl in *. rewrite Hr in *. rewrite decide_False by done.
  edestruct IH as (s' & -> & Hwf'); [|exists s'; split; [done|]].
  - simpl. intros m Hm. apply dict_mem_keys.
    rewrite dict_keys_set_mem by (apply dict_mem_true; eauto).
    apply dict_mem_keys, Hmem. by right.
  - by rewrite Hwf'.
Qed.

(** X13. When every name of the execution order is a component of the
    mapping and no component's [execute] fails or raises, the run is
    COMPLETED. *)
Theorem execute_completes init w :
  let x := execute component_execute init w in
  (∀ n, n ∈ execution_order w -> dict_mem n (components w) = true) ->
  (∀ self inputs, ∃ r, (component_execute self inputs).1 = Returns r
                       ∧ result_status r ≠ ComponentStatus.FAILED) ->
  wr_status (exec_result x) = WorkflowStatus.COMPLETED.
Proof.
  intros x Hmem Hexec. subst x. unfold execute. cbn [exec_result].
  destruct (run_loop_succeeds (execution_order w) (run_start init w) Hexec)
    as (s' & -> & Hwf); [done|].
  unfold finish. by rewrite decide_True.
Qed.

End Runs.

(** ** Data flow along the edges *)

Section Flow.
Context {py : Python} {Data Config : Type}.
Context (component_execute :
           Component (Config := Config) -> gmap string Data
           -> Outcome (Data := Data) * Component (Config := Config)).
Implicit Types (s : run_state (Data := Data) (Config := Config)).
Implicit Types (w : Workflow (Config := Config)).
Implicit Types (c : Component (Config := Config)).

Lemma precedes_prefix (l1 l2 : list string) a b :
  NoDup (l1 ++ l2) -> precedes a b (l1 ++ l2) ->
  b ∈ l1 ∨ head l2 = Some b -> a ∈ l1.
Proof.
  intros Hnd (i & j & Hi & Hj & Hij) Hb.
  assert (j ≤ length l1) as Hle.
  { destruct Hb as [[j' Hj']%list_elem_of_lookup|Hb].
    - pose proof (lookup_lt_Some _ _ _ Hj').
      assert (j = j'); [|lia].
      eapply NoDup_lookup; [done..|]. by rewrite lookup_app_l.
    - assert (j = length l1); [|lia].
      eapply NoDup_lookup; [done..|].
      rewrite lookup_app_r, Nat.sub_diag by lia.
      destruct l2; simplify_eq/=. done. }
  rewrite lookup_app_l in Hi by lia. apply list_elem_of_lookup. eauto.
Qed.

Lemma run_loop_fed w names ran s :
  NoDup (execution_order w) ->
  (∀ a b, edge (components w) a b -> precedes a b (execution_order w)) ->
  ran ++ names = execution_order w ->
  flowing w ran s -> fed w s ->
  fed w (loop_state (run_loop component_execute names s)).
Proof.
  intros Hnd Hedges. revert ran s.
  induction names as [|n names IH]; intros ran s Horder Hflow Hfed;
    cbn [run_loop]; [done|].
  destruct (dict_get n (components (run_wf s))) as [c|] eqn:Hc; [|done].
  assert (n ∉ ran) as Hn.
  { rewrite <- Horder in Hnd. apply NoDup_app in Hnd as (_ & Hdisj & _).
    intros ?. eapply Hdisj; [done|]. by left. }
  assert (∀ a b, edge (components w) a b -> b ∈ ran ∨ b = n -> a ∈ ran)
    as Hbefore.
  { intros a b Hab Hb. apply (precedes_prefix ran (n :: names) a b).
    - by rewrite Horder.
    - rewrite Horder. by apply Hedges.
    - destruct Hb as [?| ->]; [by left | by right]. }
  destruct (call_component_spec component_execute n c s)
    as (Hlog & Hres & Houts & _ & _ & c' & Hcs).
  set (i_n := mkInvocation n
                (_prepare_component_inputs
                   (set_status ComponentStatus.RUNNING c) (run_outputs s))
                (call_component component_execute n c s).1) in *.
  (* the new call is fed from the table, the old ones stay fed *)
  assert (∀ results : gmap string ComponentResult,
            (∀ a, a ∈ ran ->
                  results !! a = component_results (run_result s) !! a) ->
            ∀ i a, i ∈ run_log s ++ [i_n] ->
                   edge (components w) a (inv_name i) ->
                   ∃ ra, returned a ra (run_log s ++ [i_n])
                         ∧ result_status ra ≠ ComponentStatus.FAILED
                         ∧ results !! a = Some ra
                         ∧ inv_inputs i !! a = Some (data ra)) as Hstep.
  { intros results Hsame i a [Hi|Hi%list_elem_of_singleton]%elem_of_app Hedge.
    - destruct (Hfed i a Hi Hedge) as (ra & [ia Hra] & Hok & Hr & Hin).
      exists ra. split_and!; [| done | | done].
      + exists ia. apply elem_of_app. by left.
      + rewrite Hsame; [done|]. eapply Hbefore; [done|].
        left. by apply (flowing_names _ _ _ Hflow).
    - subst i. simpl in *.
      assert (a ∈ ran) as Ha by (eapply Hbefore; [done | by right]).
      destruct (flowing_done _ _ _ Hflow a Ha) as (ia & ra & Hra & Hok & Hr & Hout).
      exists ra. split_and!; [| done | by rewrite Hsame | ].
      + exists ia. apply elem_of_app. by left.
      + rewrite prepare_lookup. simpl.
        destruct Hedge as [(c0 & Hc0 & Hdep) _].
        rewrite <- (flowing_untouched _ _ _ Hflow n Hn), Hc in Hc0.
        injection Hc0 as <-. by rewrite decide_True. }
  destruct (call_component component_execute n c s) as [[r|e] s1] eqn:Hcall;
    simpl in Hlog, Hres, Houts, Hcs, i_n.
  - destruct (decide (result_status r = ComponentStatus.FAILED)) as [Hr|Hr].
    + intros i a. simpl. rewrite Hlog, Hres. apply Hstep.
      intros a' Ha'. rewrite lookup_insert_ne; [done|]. by intros ->.
    + apply (IH (ran ++ [n])); [by rewrite <- app_assoc | |].
      * split; simpl.
        -- intros m [Hm Hmn]%not_elem_of_app. rewrite Hcs, dict_get_set.
           rewrite decide_False by (intros ->; apply Hmn; by left).
           by apply (flowing_untouched _ _ _ Hflow).
        -- intros a [Ha|Ha%list_elem_of_singleton]%elem_of_app.
           ++ destruct (flowing_done _ _ _ Hflow a Ha)
                as (ia & ra & Hra & Hok & Hra' & Hout).
              exists ia, ra. rewrite Hlog, Hres, Houts.
              rewrite !lookup_insert_ne by (by intros ->).
              split_and!; [|done..]. apply elem_of_app. by left.
           ++ subst a. eexists _, r. rewrite Hlog, !lookup_insert_eq.
              split_and!; [|done..]. apply elem_of_app. right. by left.
        -- rewrite Hlog.
           intros i [Hi|Hi%list_elem_of_singleton]%elem_of_app;
             apply elem_of_app.
           ++ left. by apply (flowing_names _ _ _ Hflow).
           ++ subst i. right. by left.
      * intros i a. simpl. rewrite Hlog, Hres. apply Hstep.
        intros a' Ha'. rewrite lookup_insert_ne; [done|]. by intros ->.
  - intros i a. simpl. rewrite Hlog, Hres. by apply Hstep.
Qed.

Lemma elem_of_same_name (log : list (Invocation (Data := Data))) i j :
  NoDup (inv_name <$> log) -> i ∈ log -> j ∈ log ->
  inv_name i = inv_name j -> i = j.
Proof.
  intros Hnd [p Hp]%list_elem_of_lookup [q Hq]%list_elem_of_lookup Hname.
  assert (p = q) as ->; [|congruence].
  eapply NoDup_lookup; [done| |]; rewrite list_lookup_fmap.
  - by rewrite Hp.
  - by rewrite Hq, Hname.
Qed.

(** X14. In a workflow whose execution order lists every component once,
    dependencies first, take any call of a run and any dependency [a] of
    the called component that is in the graph. Then [a] was called
    earlier in the same run and returned a result other than FAILED, the
    one the run's result holds for it; and the call is a call of
    [execute] on a mapping that binds [a] to the data of that result. *)
Theorem execute_feeds_dependencies init w before i after a :
  let x := execute component_execute init w in
  topological w ->
  exec_log x = before ++ i :: after ->
  edge (components w) a (inv_name i) ->
  ∃ c ra,
    dict_get (inv_name i) (components w) = Some c
    ∧ made_on component_execute c i
    ∧ returned a ra before
    ∧ result_status ra ≠ ComponentStatus.FAILED
    ∧ component_results (exec_result x) !! a = Some ra
    ∧ inv_inputs i !! a = Some (data ra).
Proof.
  intros x Htop Hlog Hedge. pose proof Htop as (Hnd & _ & Hedges).
  destruct (execute_traced component_execute init w Hnd before i after Hlog)
    as (c & Hc & Hmade & _).
  assert (i ∈ exec_log x) as Hi.
  { rewrite Hlog. apply elem_of_app. right. by left. }
  assert (∃ ra, returned a ra (exec_log x)
                ∧ result_status ra ≠ ComponentStatus.FAILED
                ∧ component_results (exec_result x) !! a = Some ra
                ∧ inv_inputs i !! a = Some (data ra))
    as (ra & [ia Hra] & Hok & Hres & Hin).
  { revert Hi Hedge. subst x. clear Hlog.
    rewrite execute_log, execute_results.
    apply (run_loop_fed w (execution_order w) [] (run_start init w));
      [done | done | done | | ].
    - split; simpl; try done; by intros ? []%elem_of_nil.
    - by intros ? ? []%elem_of_nil. }
  exists c, ra. split_and!; [done..| |done|done|done].
  destruct (execute_halts component_execute init w) as (rest & Horder & _).
  fold x in Horder. rewrite Hlog in Horder, Hra.
  rewrite fmap_app, fmap_cons, <- app_assoc in Horder.
  assert (a ∈ inv_name <$> before) as [ja [Hja Hjb]]%list_elem_of_fmap.
  { apply (precedes_prefix _ ((inv_name i :: (inv_name <$> after)) ++ rest)
             a (inv_name i)).
    - by rewrite <- Horder.
    - rewrite <- Horder. by apply Hedges.
    - by right. }
  assert (ja = mkInvocation a ia (Returns ra)) as ->; [|by exists ia].
  apply (elem_of_same_name (before ++ i :: after)); [| |done|done].
  - assert (NoDup ((inv_name <$> before ++ i :: after) ++ rest)) as Hnd'.
    { rewrite fmap_app, fmap_cons, <- app_assoc. by rewrite <- Horder. }
    by apply NoDup_app in Hnd' as [? _].
  - apply elem_of_app. by left.
Qed.

End Flow.

(** ** An insertion order that already puts dependencies first is kept *)

Section Stable.
Context {py : Python} {Config : Type}.
Implicit Types (cs : dict (Component (Config := Config))) (st : dfs).
Implicit Types (w : Workflow (Config := Config)).

Lemma visit_dependencies_visited cs fuel deps st :
  (∀ d, d ∈ deps -> dict_mem d cs = true ->
        d ∈ visited st ∧ d ∉ temp_visited st) ->
  visit_dependencies cs (visit (S fuel) cs) deps st = Visited st.
Proof.
  induction deps as [|d deps IH]; intros Hdeps; simpl; [done|].
  assert (visit_dependencies cs (visit (S fuel) cs) deps st = Visited st)
    as Hrest.
  { apply IH. intros d' ?. apply Hdeps. by right. }
  destruct (dict_mem d cs) eqn:Hd; [|done].
  destruct (Hdeps d (list_elem_of_here _ _) Hd) as [Hv Ht].
  by rewrite decide_False, decide_True.
Qed.

Lemma visit_all_inserted_first cs fuel pre rest st :
  inserted_first cs pre rest -> NoDup (pre ++ rest) ->
  order st = pre -> visited st = list_to_set pre -> temp_visited st = ∅ ->
  ∃ st', visit_all (S (S fuel)) cs rest st = Visited st'
         ∧ order st' = pre ++ rest.
Proof.
  revert pre st. induction rest as [|n rest IH];
    intros pre st Hsorted Hnd Horder Hvisited Htemp; cbn [visit_all].
  { exists st. by rewrite app_nil_r. }
  destruct Hsorted as [(c & Hc & Hdeps) Hsorted].
  assert (n ∉ pre) as Hn.
  { apply NoDup_app in Hnd as (_ & Hdisj & _). intros ?.
    eapply Hdisj; [done|]. by left. }
  rewrite decide_False by (rewrite Hvisited; set_solver).
  rewrite visit_S. rewrite decide_False by (rewrite Htemp; set_solver).
  rewrite decide_False by (rewrite Hvisited; set_solver).
  rewrite Hc, visit_dependencies_visited.
  2:{ simpl. intros d Hd Hmem. specialize (Hdeps d Hd Hmem).
      rewrite Hvisited, Htemp. set_solver. }
  replace (pre ++ n :: rest) with ((pre ++ [n]) ++ rest) in *
    by (by rewrite <- app_assoc).
  apply (IH (pre ++ [n])); simpl.
  - done.
  - done.
  - by rewrite Horder.
  - rewrite Hvisited, list_to_set_app_L. set_solver.
  - rewrite Htemp. set_solver.
Qed.

(** Two frames are enough when every component was inserted after its
    dependencies: one for [visit] and one for the calls it makes, each of
    which returns at once. *)
Lemma update_insertion_order w :
  2 ≤ recursion_limit ->
  NoDup (dict_keys (components w)) ->
  inserted_first (components w) [] (dict_keys (components w)) ->
  _update_execution_order w
  = Done (set_execution_order (dict_keys (components w)) w).
Proof.
  intros Hlimit Hnd Hsorted. unfold _update_execution_order.
  destruct recursion_limit as [|[|fuel]]; [lia..|].
  destruct (visit_all_inserted_first (components w) fuel []
              (dict_keys (components w)) dfs_init) as (st' & Hall & Horder);
    [done..|].
  by rewrite Hall, Horder.
Qed.

(** A traversal that returned on components had two frames. *)
Lemma update_done_frames w w' :
  _update_execution_order w = Done w' -> components w ≠ [] ->
  2 ≤ recursion_limit.
Proof.
  unfold _update_execution_order. intros Hdone Hne.
  destruct (components w) as [|[k c] cs]; [done|].
  change (dict_keys ((k, c) :: cs)) with (k :: dict_keys cs) in Hdone.
  cbn [visit_all] in Hdone.
  rewrite decide_False in Hdone by (simpl; set_solver).
  destruct recursion_limit as [|[|fuel]]; [done| |lia].
  rewrite visit_S in Hdone.
  rewrite !decide_False in Hdone by (simpl; set_solver).
  simpl in Hdone. by rewrite decide_True in Hdone.
Qed.


End Stable.

(** ** Runs over an order that is out of date *)

Section Stale.
Context {py : Python} {Data Config : Type}.
Context (component_execute :
           Component (Config := Config) -> gmap string Data
           -> Outcome (Data := Data) * Component (Config := Config)).
Implicit Types (s : run_state (Data := Data) (Config := Config)).
Implicit Types (w : Workflow (Config := Config)).

(** X16. When the execution order names a component that is no longer in
    the mapping, a run cannot complete: its result is FAILED. *)
Theorem execute_missing_component init w n :
  let x := execute component_execute init w in
  n ∈ execution_order w -> dict_mem n (components w) = false ->
  wr_status (exec_result x) = WorkflowStatus.FAILED.
Proof.
  intros x Hn Hmem. subst x. unfold execute. cbn [exec_result].
  pose proof (run_loop_post component_execute (execution_order w) []
                (run_start init w) (run_start_good init w) eq_refl) as Hpost.
  destruct (run_loop_frame component_execute (execution_order w)
              (run_start init w)) as (new & Hlog & _ & _ & _ & Hcalled).
  simpl in Hlog, Hcalled.
  destruct (run_loop _ _) as [s'|e' s']; [|done].
  destruct Hpost as [[_ Hnames]|
    (s0 & i & r & _ & _ & _ & _ & _ & Hst & _ & _ & Hwf)].
  - simpl in Hlog, Hnames. rewrite Hlog in Hnames.
    rewrite Hcalled in Hmem; [done|]. by rewrite Hnames.
  - unfold finish. by rewrite decide_False by (by rewrite Hwf).
Qed.

End Stale.

(** ** The caller's initial inputs *)

Section Seeds.
Context {py : Python} {Data Config : Type}.
Context (component_execute :
           Component (Config := Config) -> gmap string Data
           -> Outcome (Data := Data) * Component (Config := Config)).
Implicit Types (s : run_state (Data := Data) (Config := Config)).
Implicit Types (w : Workflow (Config := Config)).
Implicit Types (c : Component (Config := Config)).

Lemma run_loop_overwrites names s :
  let s' := loop_state (run_loop component_execute names s) in
  ∃ new,
    run_log s' = run_log s ++ new
    ∧ ∀ k, (∀ inputs r, mkInvocation k inputs (Returns r) ∈ new ->
                        result_status r = ComponentStatus.FAILED) ->
           run_outputs s' !! k = run_outputs s !! k.
Proof.
  revert s. induction names as [|n names IH]; intros s; cbn [run_loop].
  { exists []. by rewrite app_nil_r. }
  destruct (dict_get n (components (run_wf s))) as [c|] eqn:Hc.
  2:{ exists []. by rewrite app_nil_r. }
  destruct (call_component_spec component_execute n c s)
    as (Hlog & _ & Houts & _).
  destruct (call_component component_execute n c s) as [[r|e] s1] eqn:Hcall;
    simpl in Hlog, Houts.
  - destruct (decide (result_status r = ComponentStatus.FAILED)) as [Hr|Hr].
    + eexists [_]. simpl. split; [done|]. intros k _. by rewrite Houts.
    + destruct (IH (store_output n r (store_result n r s1)))
        as (new & Hlog' & Hkeep). simpl in Hlog', Hkeep.
      eexists (_ :: new). split.
      * by rewrite Hlog', Hlog, <- app_assoc.
      * intros k Hk. rewrite Hkeep.
        -- rewrite lookup_insert_ne, Houts; [done|]. intros ->.
           apply Hr. eapply Hk. by left.
        -- intros inputs r' ?. eapply Hk. by right.
  - eexists [_]. simpl. split; [done|]. intros k _. by rewrite Houts.
Qed.

(** X18. A run writes into a non-empty [initial_inputs] mapping only under
    the names of components that returned a result other than FAILED:
    under every other key the caller's mapping holds after the run what it
    held before. *)
Theorem execute_overwrites_only_completed m w k :
  let x := execute component_execute (Some m) w in
  m ≠ ∅ ->
  (∀ r, returned k r (exec_log x) ->
        result_status r = ComponentStatus.FAILED) ->
  ∃ t, exec_initial_inputs x = Some t ∧ t !! k = m !! k.
Proof.
  intros x Hm Hk. subst x. rewrite execute_log in Hk.
  unfold execute. cbn [exec_initial_inputs]. simpl.
  assert (bool_decide (size m = 0) = false) as Hsize.
  { apply bool_decide_eq_false. by rewrite map_size_empty_iff. }
  rewrite Hsize. simpl. eexists. split; [done|].
  destruct (finish_fields (run_loop component_execute (execution_order w)
                             (run_start (Some m) w))) as (_ & -> & _).
  destruct (run_loop_overwrites (execution_order w) (run_start (Some m) w))
    as (new & Hlog & Hkeep). simpl in Hlog, Hkeep.
  rewrite Hkeep; [by rewrite Hsize|].
  intros inputs r Hin. apply Hk. exists inputs. by rewrite Hlog.
Qed.

End Seeds.

(** ** Adding and removing again *)

Section RoundTrip.
Context {py : Python} {Config : Type}.
Implicit Types (cs : dict (Component (Config := Config))).
Implicit Types (w : Workflow (Config := Config)).

Lemma dict_del_last {V} k (v : V) (d : dict V) :
  dict_mem k d = false -> dict_del k (d ++ [(k, v)]) = d.
Proof.
  unfold dict_mem. induction d as [|[k0 v0] d IH]; simpl.
  { by rewrite decide_True. }
  destruct (decide (k = k0)); [done|]. intros ?. f_equal. auto.
Qed.

Lemma update_whatever_order o w w' :
  _update_execution_order w = Done w' ->
  _update_execution_order (set_execution_order o w) = Done w'.
Proof.
  unfold _update_execution_order. simpl.
  destruct (visit_all _ _ _ _); [|done]. by intros [= <-].
Qed.

(** X19. Removing a component right after it was added undoes the
    addition: on a workflow whose execution order is current,
    [remove_component n] after a returning [add_component] of a new
    component named [n] gives back the workflow as it was before. *)
Theorem add_then_remove n cfg w w1 :
  up_to_date w ->
  add_component (new_component n cfg) w = Done w1 ->
  remove_component n w1 = Done w.
Proof.
  intros Hup Hadd. unfold add_component in Hadd. simpl in Hadd.
  destruct (dict_mem n (components w)) eqn:Hn; [done|].
  rewrite dict_set_absent in Hadd by done.
  apply update_done in Hadd as (Hcs & Hst & _). simpl in Hcs, Hst.
  unfold remove_component.
  rewrite Hcs. unfold dict_mem at 1.
  rewrite <- (dict_set_absent n) by done. rewrite dict_get_set.
  rewrite decide_True by done. rewrite dict_set_absent by done.
  rewrite dict_del_last by done.
  replace (set_components (components w) w1)
    with (set_execution_order (execution_order w1) w).
  - by apply update_whatever_order.
  - destruct w, w1. simpl in *. by subst.
Qed.

End RoundTrip.

(** ** Workflows built from a configuration *)

Section Builder.
Context {py : Python} {Settings : Type}.
Implicit Types (cs : dict (Component (Config := string * Settings))).
Implicit Types (c : Component (Config := string * Settings)).
Implicit Types (w : Workflow (Config := string * Settings)).
Implicit Types (cc : ComponentConfig.t (Settings := Settings)).
Implicit Types (configs cfgs : list (ComponentConfig.t (Settings := Settings))).
Implicit Types (ks pre : list string).

Lemma layered_inserted_first cs pre rest :
  layered cs (pre ++ rest) -> inserted_first cs pre rest.
Proof.
  revert pre. induction rest as [|n rest IH]; intros pre Hl; simpl; [done|].
  destruct Hl as (Hkeys & Hnd & Hdeps).
  assert ((pre ++ n :: rest) !! length pre = Some n) as Hn.
  { by rewrite lookup_app_r, Nat.sub_diag by lia. }
  split.
  - assert (is_Some (dict_get n cs)) as [c Hc].
    { apply dict_get_keys. rewrite Hkeys. set_solver. }
    exists c. split; [done|]. intros d Hd _.
    specialize (Hdeps _ _ _ _ Hn Hc Hd). by rewrite take_app_length in Hdeps.
  - apply IH. by rewrite <- app_assoc.
Qed.

Lemma update_layered w ks :
  2 ≤ recursion_limit ->
  layered (components w) ks ->
  _update_execution_order w = Done (set_execution_order ks w).
Proof.
  intros Hlimit Hl. pose proof Hl as (Hkeys & Hnd & _).
  rewrite <- Hkeys. apply update_insertion_order; [done|by rewrite Hkeys|].
  rewrite Hkeys. by apply (layered_inserted_first _ []).
Qed.

Lemma layered_add cs ks n cfg :
  layered cs ks -> n ∉ ks ->
  layered (dict_set n (new_component n cfg) cs) (ks ++ [n]).
Proof.
  intros (Hkeys & Hnd & Hdeps) Hn.
  assert (dict_mem n cs = false) as Hmem.
  { apply not_true_is_false. by rewrite dict_mem_keys, Hkeys. }
  split_and!.
  - by rewrite dict_keys_set_new, Hkeys.
  - apply NoDup_app. split_and!; [done| |apply NoDup_singleton].
    intros x ? ->%list_elem_of_singleton. done.
  - intros i m c d Hi. rewrite dict_get_set.
    destruct (decide (m = n)) as [->|Hne].
    { intros [= <-]. simpl. by intros ?%elem_of_nil. }
    intros Hc Hd. apply lookup_app_Some in Hi as [Hi|[_ Hi]].
    + rewrite take_app_le by (apply lookup_lt_Some in Hi; lia). eauto.
    + apply list_lookup_singleton_Some in Hi as [_ ?]. done.
Qed.

Lemma layered_connect cs ks j source target :
  layered cs ks -> ks !! j = Some target -> source ∈ take j ks ->
  layered (connected source target cs) ks.
Proof.
  intros (Hkeys & Hnd & Hdeps) Hj Hsource. split_and!.
  - by rewrite connected_keys.
  - done.
  - intros i m c' d Hi Hc' Hd.
    apply connected_get in Hc' as (c & Hc & Hiff & _).
    apply Hiff in Hd as [Hd|[-> ->]]; [eauto|].
    by rewrite (NoDup_lookup _ _ _ _ Hnd Hi Hj).
Qed.

Lemma connected_config source target cs k c' :
  dict_get k (connected source target cs) = Some c' ->
  ∃ c, dict_get k cs = Some c ∧ config c' = config c.
Proof.
  assert (∀ a c, config (add_dependency a c) = config c) as Hdep.
  { intros a c. unfold add_dependency. by destruct (decide _). }
  assert (∀ a c, config (add_output a c) = config c) as Hout.
  { intros a c. unfold add_output. by destruct (decide _). }
  unfold connected. rewrite !dict_get_update. intros Hc'.
  destruct (dict_get k cs) as [c|]; [exists c; split; [done|]|].
  - destruct (decide (k = source)), (decide (k = target)); simpl in Hc';
      injection Hc' as <-; by rewrite ?Hout, ?Hdep.
  - by destruct (decide (k = source)), (decide (k = target)).
Qed.

Lemma staged_mem w ks n :
  staged w ks -> n ∈ ks -> dict_mem n (components w) = true.
Proof. intros [(Hkeys & _) _] ?. by rewrite dict_mem_keys, Hkeys. Qed.

Lemma staged_get w ks n :
  staged w ks -> n ∈ ks -> is_Some (dict_get n (components w)).
Proof. intros [(Hkeys & _) _] ?. by rewrite dict_get_keys, Hkeys. Qed.

Lemma staged_new : staged (new_workflow (Config := string * Settings)) [].
Proof.
  split; [|done]. split_and!; [done|apply NoDup_nil_2|].
  by intros i n c d Hi.
Qed.

(** One call of [add_component] on a new component *)
Lemma add_component_staged w ks n cfg :
  2 ≤ recursion_limit ->
  staged w ks -> n ∉ ks ->
  ∃ w1, add_component (new_component n cfg) w = Done w1
        ∧ staged w1 (ks ++ [n])
        ∧ components w1 = dict_set n (new_component n cfg) (components w).
Proof.
  intros Hlimit [Hl Horder] Hn. pose proof Hl as (Hkeys & _).
  unfold add_component. simpl.
  assert (dict_mem n (components w) = false) as ->.
  { apply not_true_is_false. by rewrite dict_mem_keys, Hkeys. }
  pose proof (layered_add _ _ n cfg Hl Hn) as Hl'.
  rewrite (update_layered _ (ks ++ [n])) by done.
  eexists. split; [done|]. by split.
Qed.

Lemma add_component_done c w w1 :
  add_component c w = Done w1 ->
  dict_mem (name c) (components w) = false ∧ 2 ≤ recursion_limit.
Proof.
  unfold add_component. destruct (dict_mem _ _); [done|].
  intros Hupd. split; [done|]. apply (update_done_frames _ _ Hupd). simpl.
  by destruct (components w) as [|[k0 c0] cs]; simpl; [|destruct (decide _)].
Qed.

(** One call of [connect_components] towards the component added last *)
Lemma connect_components_staged w ks n d :
  2 ≤ recursion_limit ->
  staged w (ks ++ [n]) -> d ∈ ks ->
  ∃ w', connect_components d n w = Done w'
        ∧ staged w' (ks ++ [n])
        ∧ components w' = connected d n (components w).
Proof.
  intros Hlimit Hst Hd. pose proof Hst as [Hl Horder].
  rewrite connect_components_present
    by (apply (staged_mem w (ks ++ [n])); set_solver).
  assert (layered (connected d n (components w)) (ks ++ [n])) as Hl'.
  { apply (layered_connect _ _ (length ks)); [done| |].
    - by rewrite lookup_app_r, Nat.sub_diag by lia.
    - by rewrite take_app_length. }
  rewrite (update_layered _ (ks ++ [n])) by done.
  eexists. split; [done|]. by split.
Qed.

Lemma connect_components_done w ks n d w' :
  staged w (ks ++ [n]) -> connect_components d n w = Done w' ->
  d ∈ ks ∧ 2 ≤ recursion_limit.
Proof.
  intros Hst Hdone.
  assert (dict_mem n (components w) = true) as Hn
    by (apply (staged_mem w (ks ++ [n])); set_solver).
  destruct (dict_mem d (components w)) eqn:Hd.
  2:{ unfold connect_components in Hdone. by rewrite Hd in Hdone. }
  rewrite connect_components_present in Hdone by done.
  split.
  2:{ apply (update_done_frames _ _ Hdone). simpl.
      intros Hnil%(f_equal length). rewrite connected_length in Hnil.
      apply dict_mem_true in Hn as [? Hn].
      by destruct (components w). }
  apply update_done_acyclic in Hdone. simpl in Hdone.
  destruct Hst as [(Hkeys & _) _].
  apply dict_mem_keys in Hd. rewrite Hkeys in Hd.
  apply elem_of_app in Hd as [?|Hd%list_elem_of_singleton]; [done|].
  subst d. destruct Hdone. exists n. apply tc_once. by apply connected_edge_new.
Qed.

Lemma connect_dependencies_done ds n ks w w' :
  staged w (ks ++ [n]) -> connect_dependencies ds n w = Done w' ->
  (∀ d, d ∈ ds -> d ∈ ks) ∧ staged w' (ks ++ [n])
  ∧ grown n ds (components w) (components w').
Proof.
  revert w. induction ds as [|d ds IH]; intros w Hst; simpl.
  { intros [= <-]. split_and!; [by intros ? ?%elem_of_nil|done|].
    intros m c' Hc'. exists c'. split_and!; [done..|].
    intros a. split; [by left|]. intros [?|[_ ?%elem_of_nil]]; done. }
  destruct (connect_components d n w) as [w1|] eqn:Hconn; [|done].
  intros Hrest.
  pose proof (connect_components_done _ _ _ _ _ Hst Hconn) as [Hd Hlimit].
  destruct (connect_components_staged _ _ _ _ Hlimit Hst Hd)
    as (w1' & Hconn' & Hst1 & Hcs1).
  rewrite Hconn in Hconn'. injection Hconn' as <-.
  destruct (IH _ Hst1 Hrest) as (Hds & Hst' & Hgrown).
  split_and!; [|done|].
  - intros d' [->|?]%elem_of_cons; auto.
  - intros m c' Hc'. destruct (Hgrown _ _ Hc') as (c1 & Hc1 & Hcfg & Hiff).
    rewrite Hcs1 in Hc1.
    destruct (connected_config _ _ _ _ _ Hc1) as (c0 & Hc0 & Hcfg0).
    destruct (connected_get _ _ _ _ _ Hc1) as (c0' & Hc0' & Hiff0 & _).
    assert (c0' = c0) as -> by congruence.
    exists c0. split_and!; [done|congruence|].
    intros a. rewrite Hiff, Hiff0, elem_of_cons. naive_solver.
Qed.


Lemma buildable_cons pre cc cfgs :
  buildable pre (cc :: cfgs)
  ↔ (ComponentConfig.name cc ∉ pre)
    ∧ (ComponentConfig.class_name cc ∈ COMPONENT_CLASSES)
    ∧ (∀ d, d ∈ ComponentConfig.dependencies cc -> d ∈ pre)
    ∧ buildable (pre ++ [ComponentConfig.name cc]) cfgs.
Proof.
  unfold buildable, declared_first. rewrite Forall_cons, fmap_cons.
  rewrite <- (app_assoc pre [_]). simpl. split.
  - intros (Hnd & [Hclass Hall] & Hdecl). split_and!; try done.
    + apply NoDup_app in Hnd as (_ & Hdisj & _). intros ?.
      eapply Hdisj; [done|]. by left.
    + intros d Hd. specialize (Hdecl 0 cc d eq_refl Hd).
      by rewrite app_nil_r in Hdecl.
    + intros i cc' d Hi Hd. rewrite <- app_assoc.
      by apply (Hdecl (S i) cc' d).
  - intros (Hn & Hclass & Hdeps & Hnd & Hall & Hdecl). split_and!; try done.
    intros [|i] cc' d Hi Hd; simpl in *.
    + injection Hi as <-. rewrite app_nil_r. auto.
    + specialize (Hdecl i cc' d Hi Hd). by rewrite <- app_assoc in Hdecl.
Qed.

Lemma enabled_configs_cons cc configs :
  enabled_configs (cc :: configs)
  = if ComponentConfig.enabled cc then cc :: enabled_configs configs
    else enabled_configs configs.
Proof.
  unfold enabled_configs. destruct (ComponentConfig.enabled cc) eqn:E.
  - by rewrite filter_cons_True.
  - rewrite filter_cons_False; [done|]. by rewrite E.
Qed.

(** The loop over the entries, from a workflow built in layers: when it
    returns, the enabled entries were buildable, the workflow is again
    built in layers, the components it had are kept and each enabled entry
    has given its component. *)
Lemma add_components_done configs ks w w' :
  staged w ks -> add_components configs w = Done w' ->
  buildable ks (enabled_configs configs)
  ∧ staged w' (ks ++ (ComponentConfig.name <$> enabled_configs configs))
  ∧ kept (components w) (components w')
  ∧ entered (enabled_configs configs) (components w').
Proof.
  revert ks w. induction configs as [|cc configs IH]; intros ks w Hst.
  { simpl. intros [= <-]. unfold enabled_configs. rewrite filter_nil.
    simpl. rewrite app_nil_r. split_and!.
    - unfold buildable, declared_first. simpl. rewrite app_nil_r.
      split_and!; [by destruct Hst as [(_ & ? & _) _]|done|].
      by intros i cc d Hi.
    - done.
    - intros m c Hc. exists c. by split_and!.
    - by intros cc ?%elem_of_nil. }
  rewrite enabled_configs_cons. cbn [add_components].
  destruct (ComponentConfig.enabled cc) eqn:Hon; cbn [negb]; [|by apply IH].
  unfold create_component_from_config.
  destruct (bool_decide _) eqn:Hclass; [|done].
  apply bool_decide_eq_true in Hclass.
  set (n := ComponentConfig.name cc) in *.
  set (cfg := (ComponentConfig.class_name cc, ComponentConfig.config cc)).
  destruct (add_component (new_component n cfg) w) as [w1|] eqn:Hadd; [|done].
  destruct (connect_dependencies _ n w1) as [w2|] eqn:Hconn; [|done].
  intros Hrest.
  pose proof (add_component_done _ _ _ Hadd) as [Hfree Hlimit].
  simpl in Hfree.
  assert (n ∉ ks) as Hn.
  { destruct Hst as [(Hkeys & _) _]. rewrite <- Hkeys, <- dict_mem_keys.
    by rewrite Hfree. }
  destruct (add_component_staged w ks n cfg Hlimit Hst Hn)
    as (w1' & Hadd' & Hst1 & Hcs1).
  rewrite Hadd in Hadd'. injection Hadd' as <-.
  destruct (connect_dependencies_done _ _ _ _ _ Hst1 Hconn)
    as (Hdeps & Hst2 & Hgrown).
  destruct (IH _ _ Hst2 Hrest) as (Hb & Hst' & Hkept & Hentered).
  assert (∀ m c1, dict_get m (components w1) = Some c1 ->
            ∃ c', dict_get m (components w') = Some c'
                  ∧ config c' = config c1
                  ∧ ∀ a, a ∈ dependencies c'
                         ↔ a ∈ dependencies c1
                           ∨ (m = n ∧ a ∈ ComponentConfig.dependencies cc))
    as Hstep.
  { intros m c1 Hc1.
    assert (is_Some (dict_get m (components w2))) as [c2 Hc2].
    { apply (staged_get w2 (ks ++ [n])); [done|].
      destruct Hst1 as [(Hkeys1 & _) _]. rewrite <- Hkeys1.
      apply dict_get_keys. by rewrite Hc1. }
    destruct (Hgrown _ _ Hc2) as (c0 & Hc0 & Hcfg & Hiff).
    assert (c0 = c1) as -> by congruence.
    destruct (Hkept _ _ Hc2) as (c' & Hc' & Hcfg' & Hiff').
    exists c'. split_and!; [done|congruence|].
    intros a. by rewrite Hiff', Hiff. }
  split_and!.
  - by apply buildable_cons.
  - by rewrite fmap_cons, cons_middle, app_assoc.
  - intros m c Hc.
    assert (m ≠ n) as Hne.
    { intros ->. apply Hn. destruct Hst as [(Hkeys & _) _].
      rewrite <- Hkeys. apply dict_get_keys. by rewrite Hc. }
    destruct (Hstep m c) as (c' & Hc' & Hcfg & Hiff).
    { by rewrite Hcs1, dict_get_set, decide_False. }
    exists c'. split_and!; [done..|]. intros a. rewrite Hiff. naive_solver.
  - intros cc' [->|Hcc']%elem_of_cons; [|by apply Hentered]. fold n.
    destruct (Hstep n (new_component n cfg)) as (c' & Hc' & Hcfg & Hiff).
    { by rewrite Hcs1, dict_get_set, decide_True. }
    exists c'. split_and!; [done..|]. intros a. rewrite Hiff. simpl.
    rewrite elem_of_nil. naive_solver.
Qed.






(** X22. When the loop returns, the workflow has one component per enabled
    entry, inserted in the order of the configuration, and the execution
    order is that same order; the component of an entry carries its class
    name and [config] and has exactly the entry's dependencies. *)
Theorem build_workflow_order configs w :
  let cfgs := enabled_configs configs in
  build_workflow configs = Done w ->
  dict_keys (components w) = ComponentConfig.name <$> cfgs
  ∧ execution_order w = ComponentConfig.name <$> cfgs
  ∧ ∀ cc, cc ∈ cfgs ->
      ∃ c, dict_get (ComponentConfig.name cc) (components w) = Some c
           ∧ config c
             = (ComponentConfig.class_name cc, ComponentConfig.config cc)
           ∧ ∀ d, d ∈ dependencies c ↔ d ∈ ComponentConfig.dependencies cc.
Proof.
  intros cfgs Hw. subst cfgs. unfold build_workflow in Hw.
  destruct (add_components_done configs [] _ _ staged_new Hw)
    as (_ & [(Hkeys & _) Horder] & _ & Hentered).
  by split_and!.
Qed.

End Builder.

(** ** Instances of the further properties *)

Section FurtherInstances.
#[local] Existing Instance CPython.

Lemma ex_ab_acyclic : ¬ has_cycle (components ex_ab).
Proof. apply (update_done_acyclic ex_ab ex_ab). by vm_compute. Defined.


Lemma connect_components_idempotent_witness :
  connect_components "A" "B" ex_ab = Done ex_ab.
Proof.
  apply (connect_components_idempotent "A" "B"
           (script [AddStep "A" (MockAdd 1); AddStep "B" (MockAdd 2)])).
  by vm_compute.
Defined.

Lemma remove_component_returns_witness :
  ∃ w', remove_component "A" ex_ab = Done w'
        ∧ components w' = dict_del "A" (components ex_ab)
        ∧ topological w' ∧ ¬ has_cycle (components w').
Proof.
  apply (remove_component_returns "A" ex_ab);
    [apply (bool_decide_unpack _); by vm_compute | apply ex_ab_acyclic
    | apply (bool_decide_unpack _); by vm_compute | by vm_compute].
Defined.

Lemma ex_readded_reachable : reachable ex_readded.
Proof.
  apply (reachable_add ex_removed "A" (MockAdd 7)).
  apply (reachable_remove ex_ab "A").
  apply (reachable_connect
           (script [AddStep "A" (MockAdd 1); AddStep "B" (MockAdd 2)])
           "A" "B").
  apply (reachable_add (script [AddStep "A" (MockAdd 1)]) "B" (MockAdd 2)).
  apply (reachable_add new_workflow "A" (MockAdd 1)), reachable_new.
Defined.

Lemma reachable_shape_witness :
  NoDup (dict_keys (components ex_readded))
  ∧ NoDup (execution_order ex_readded)
  ∧ ∀ n c, dict_get n (components ex_readded) = Some c ->
           name c = n ∧ NoDup (dependencies c) ∧ NoDup (outputs c).
Proof. apply (reachable_shape ex_readded), ex_readded_reachable. Defined.

Lemma validate_after_remove_witness :
  missing_dependency_msg "B" "A"
  ∈ (validate mock_validate_config
       (workflow_of (remove_component "A" ex_ab))).1.
Proof.
  eapply (validate_after_remove mock_validate_config "A" "B" _ ex_ab).
  - apply (bool_decide_unpack _). by vm_compute.
  - by vm_compute.
  - by vm_compute.
  - done.
  - by left.
Defined.

Lemma execute_completes_witness :
  wr_status (exec_result (execute adder_execute None ex_chain))
  = WorkflowStatus.COMPLETED.
Proof.
  apply (execute_completes adder_execute None ex_chain).
  - intros n Hn. vm_compute in Hn.
    repeat (apply elem_of_cons in Hn as [->|Hn]; [by vm_compute|]).
    by apply elem_of_nil in Hn.
  - intros self inputs. by eexists.
Defined.

Lemma execute_feeds_dependencies_witness :
  let iA := mkInvocation "A" (∅ : gmap string Z)
              (Returns {| result_status := ComponentStatus.COMPLETED;
                          data := 1%Z; metadata := ∅; errors := [] |}) in
  let iB := mkInvocation "B" ({[ "A" := 1%Z ]} : gmap string Z)
              (Returns {| result_status := ComponentStatus.COMPLETED;
                          data := 11%Z; metadata := ∅; errors := [] |}) in
  let iC := mkInvocation "C" ({[ "B" := 11%Z ]} : gmap string Z)
              (Returns {| result_status := ComponentStatus.COMPLETED;
                          data := 111%Z; metadata := ∅; errors := [] |}) in
  let x := execute adder_execute None ex_chain in
  exec_log x = [iA; iB; iC]
  ∧ ∃ c ra,
      dict_get "C" (components ex_chain) = Some c
      ∧ made_on adder_execute c iC
      ∧ returned "B" ra [iA; iB]
      ∧ result_status ra ≠ ComponentStatus.FAILED
      ∧ component_results (exec_result x) !! "B" = Some ra
      ∧ inv_inputs iC !! "B" = Some (data ra).
Proof.
  intros iA iB iC x.
  assert (exec_log x = [iA; iB; iC]) as Hlog by by vm_compute.
  split; [done|].
  refine (execute_feeds_dependencies adder_execute None ex_chain
            [iA; iB] iC [] "B" _ _ _).
  - apply (update_done_topological ex_chain ex_chain). by vm_compute.
  - done.
  - split; [|by vm_compute]. eexists. split; [by vm_compute | by left].
Defined.


Lemma execute_missing_component_witness :
  wr_status (exec_result (execute mock_execute None ex_stale))
  = WorkflowStatus.FAILED.
Proof.
  apply (execute_missing_component mock_execute None ex_stale "C");
    [|by vm_compute].
  vm_compute. right. right. left.
Defined.

Example stale_run_errors :
  wr_errors (exec_result (execute mock_execute None ex_stale)) = ["'C'"].
Proof. by vm_compute. Qed.

Lemma execute_overwrites_only_completed_witness :
  ∃ t, exec_initial_inputs
         (execute mock_execute (Some {[ "A" := 7%Z; "B" := 8%Z ]}) ex_fail)
       = Some t
       ∧ t !! "B" = ({[ "A" := 7%Z; "B" := 8%Z ]} : gmap string Z) !! "B".
Proof.
  apply (execute_overwrites_only_completed mock_execute
           {[ "A" := 7%Z; "B" := 8%Z ]} ex_fail "B").
  - apply insert_non_empty.
  - intros r [inputs Hin]. vm_compute in Hin.
    apply elem_of_cons in Hin as [[=]|Hin]. by apply elem_of_nil in Hin.
Defined.

Lemma add_then_remove_witness :
  ∃ w1, add_component (new_component "C" (MockAdd 3)) ex_ab = Done w1
        ∧ remove_component "C" w1 = Done ex_ab.
Proof.
  destruct (add_component (new_component "C" (MockAdd 3)) ex_ab)
    as [w1|e w1] eqn:Hadd.
  - exists w1. split; [done|].
    apply (add_then_remove "C" (MockAdd 3) ex_ab w1); [by vm_compute|done].
  - by vm_compute in Hadd.
Defined.


Lemma build_workflow_order_witness :
  ∃ w, build_workflow ex_configs = Done w
       ∧ execution_order w = ["load"; "report"].
Proof.
  destruct (build_workflow ex_configs) as [w|e w] eqn:Hw.
  - exists w. split; [done|].
    destruct (build_workflow_order ex_configs w Hw) as (_ & Horder & _).
    rewrite Horder. by vm_compute.
  - by vm_compute in Hw.
Defined.

End FurtherInstances.
